(** * spacetoolbox: the area-Mach relation solver

    A shallow embedding of [area_mach_relation.py]: the root search
    [area_to_mach] that inverts the isentropic area-Mach relation, and the
    contour pass [nozzle_contour_to_mach] that applies it to every row of a
    nozzle contour.

    Numbers.  The program computes with Python floats.  Here every number
    is an exact rational ([Q]): the literals [1.4], [0.000001], [-0.1] stand
    for the decimal fractions they spell, [+], [*], [/] are exact, and with
    [gamma = 1.4] the exponent [(gamma + 1) / (gamma - 1)] is the integer 6,
    so that [**] is an integer power.  Rounding error, overflow and the
    accuracy of the C library's [pow] are outside this model; the one
    place where binary64 is looked at is [float_descent], the first steps
    of the subsonic search. *)

From Stdlib Require Import QArith Qround Qabs Qpower Lia Lqa ZArith List Bool.
From Stdlib Require Import Floats.
From stdpp Require Import list.

Open Scope Q_scope.

(** ** Outcomes of a call *)

(** The only [raise] of the source is
    [raise Exception("Input must be >= than {}".format(radius_throat))];
    the specification calls this error kind InvalidGeometry.  Its message
    holds the throat radius and nothing else.  [ZeroDivisionError] is what
    Python raises on a division by zero. *)
Inductive exn : Type :=
  | InvalidGeometry (radius_throat : Q)
  | ZeroDivisionError.

(** [OutOfFuel] is not an outcome of the program: it says that the loop
    bound given to the model was too small to decide the outcome. *)
Inductive result (A : Type) : Type :=
  | Ok (a : A)
  | Raise (e : exn)
  | OutOfFuel.

Arguments Ok {A} a.
Arguments Raise {A} e.
Arguments OutOfFuel {A}.

(** Sequencing: an exception (or the lack of fuel) ends the call. *)
#[global] Instance result_bind : MBind result := fun A B k r =>
  match r with
  | Ok a => k a
  | Raise e => Raise e
  | OutOfFuel => OutOfFuel
  end.

(** ** Arithmetic of the source *)

Definition Qlt_bool (x y : Q) : bool := negb (Qle_bool y x).

Infix "<?" := Qlt_bool : Q_scope.

(** [a / b] on Python numbers: a division by zero raises.  (With a numpy
    scalar as an operand it gives inf or nan and a warning instead; the
    statements below keep the throat radius, and with it [ls], away from
    zero.) *)
Definition py_div (a b : Q) : result Q :=
  if Qeq_bool b 0 then Raise ZeroDivisionError else Ok (a / b).

(** [b ** e] for an exponent with an integral value. *)
Definition py_pow (b e : Q) : Q := Qpower b (Qnum (Qred e)).

(** Round half to even, the rule of [numpy.around]. *)
Definition round_half_even (x : Q) : Z :=
  let n := Qnum x in
  let d := Zpos (Qden x) in
  let q := (n / d)%Z in
  let r := (n mod d)%Z in
  if (2 * r <? d)%Z then q
  else if (d <? 2 * r)%Z then (q + 1)%Z
  else if Z.even q then q else (q + 1)%Z.

(** [np.around(x, decimals)]. *)
Definition around (x : Q) (decimals : Z) : Q :=
  let scale := inject_Z (10 ^ decimals) in
  Qred (inject_Z (round_half_even (x * scale)) / scale).

(** ** [area_to_mach] *)

Definition gamma : Q := 1.4.
Definition tolerance : Q := 0.000001.
Definition lower_limit : Q := 1 - tolerance.
Definition upper_limit : Q := 1 + tolerance.
Definition decimals : Z := 5.

(** The right side "rs" of the area-Mach relation, as the source writes it
    (five times):
    [(1 / mach_no ** 2) * (2 * (1 + ((gamma - 1) * mach_no ** 2) / 2) / (gamma + 1)) ** ((gamma + 1) / (gamma - 1))]. *)
Definition right_side (mach_no : Q) : result Q :=
  inv ← py_div 1 (mach_no ^ 2);
  Ok (inv * py_pow (2 * (1 + ((gamma - 1) * mach_no ^ 2) / 2) / (gamma + 1))
                   ((gamma + 1) / (gamma - 1))).

(** The variables the loops update. *)
Record state : Type := State {
  st_mach_no : Q;
  st_step_size : Q;
  st_i : Q
}.

(** The body shared by the four inner loops:
    [mach_no = mach_no + step_size; rs = ...; i = rs / ls;
     if <flip i>: step_size = step_size * -0.1].
    [Qred] writes a fraction in lowest terms; it does not change the
    number. *)
Definition advance (ls : Q) (flip : Q -> bool) (st : state) : result state :=
  let mach_no := Qred (st_mach_no st + st_step_size st) in
  rs ← right_side mach_no;
  i ← py_div rs ls;
  Ok {| st_mach_no := mach_no;
        st_step_size := if flip i then Qred (st_step_size st * -0.1)
                        else st_step_size st;
        st_i := i |}.

(** [while cond: body], run for at most [fuel] tests of [cond]. *)
Fixpoint while {St : Type} (fuel : nat) (cond : St -> bool)
    (body : St -> result St) (st : St) : result St :=
  match fuel with
  | O => OutOfFuel
  | S fuel' =>
      if cond st then st' ← body st; while fuel' cond body st'
      else Ok st
  end.

Definition above (st : state) : bool := upper_limit <? st_i st.
Definition below (st : state) : bool := st_i st <? lower_limit.
Definition out_of_band (st : state) : bool := below st || above st.

(** [while i > upper_limit: ...; if i < lower_limit: step_size = ...]. *)
Definition while_above (fuel : nat) (ls : Q) : state -> result state :=
  while fuel above (advance ls (fun i => i <? lower_limit)).

(** [while i < lower_limit: ...; if i > upper_limit: step_size = ...]. *)
Definition while_below (fuel : nat) (ls : Q) : state -> result state :=
  while fuel below (advance ls (fun i => upper_limit <? i)).

(** The subsonic loop (source lines 76-90). *)
Definition subsonic_loop (fuel : nat) (ls : Q) : state -> result state :=
  while fuel out_of_band
    (fun st => st' ← while_above fuel ls st; while_below fuel ls st').

(** The supersonic loop (source lines 98-112). *)
Definition supersonic_loop (fuel : nat) (ls : Q) : state -> result state :=
  while fuel out_of_band
    (fun st => st' ← while_below fuel ls st; while_above fuel ls st').

(** [fuel] bounds the number of tests of each [while]; the program itself
    has no bound. *)
Definition area_to_mach (fuel : nat) (x_pos radius_local radius_throat : Q)
    : result Q :=
  let mach_no := 1 in
  let step_size := -0.1 in
  if radius_local <? radius_throat then Raise (InvalidGeometry radius_throat)
  else
    let supersonic := if x_pos <? 0 then false else true in
    local_area_ratio ← py_div (radius_local ^ 2) (radius_throat ^ 2);
    let ls := local_area_ratio ^ 2 in
    rs ← right_side mach_no;
    i ← py_div rs ls;
    if (lower_limit <? i) && (i <? upper_limit) then Ok mach_no
    else if negb supersonic then
      st ← subsonic_loop fuel ls (State mach_no step_size i);
      Ok (around (st_mach_no st) 5)
    else
      let step_size := step_size * -1 in
      st ← supersonic_loop fuel ls (State mach_no step_size i);
      Ok (around (st_mach_no st) decimals).

(** ** [nozzle_contour_to_mach] *)

(** The two tables the function writes with [np.savetxt]:
    ['nozzle_Q1D_xm.xy'] holds the rows of [x_mach_array] and
    ['nozzle_Q1D_xym.csv'] the rows of [contour_mach]. *)
Record written : Type := Written {
  nozzle_Q1D_xm : list (Q * Q);
  nozzle_Q1D_xym : list (Q * Q * Q)
}.

(** The test of both loops over the rows: [i < len(df.index)]. *)
Definition rows_left {A : Type} (df : list (Q * Q)) : nat * A -> bool :=
  fun '(i, _) => (i <? length df)%nat.

(** Body of the first loop (source lines 136-138):
    [local_mach = area_to_mach(df.iloc[i]['x_nozzle'], df.iloc[i]['y_nozzle'], radius_throat);
     contour_mach[i] = (x_nozzle[i], y_nozzle[i], local_mach); i = i + 1].
    The loop test keeps [i] inside the table, so the last case of the
    [match] is never reached. *)
Definition contour_mach_body (fuel : nat) (df : list (Q * Q)) (radius_throat : Q)
    : nat * list (Q * Q * Q) -> result (nat * list (Q * Q * Q)) :=
  fun '(i, contour_mach) =>
    let x_nozzle := df.*1 in
    let y_nozzle := df.*2 in
    match df !! i, x_nozzle !! i, y_nozzle !! i with
    | Some row, Some x, Some y =>
        local_mach ← area_to_mach fuel row.1 row.2 radius_throat;
        Ok (S i, <[i := (x, y, local_mach)]> contour_mach)
    | _, _, _ => Ok (S i, contour_mach)
    end.

(** Body of the second loop (source lines 143-144):
    [x_mach_array[i] = (contour_mach[i, 0]/1000, contour_mach[i, 2]); i = i + 1]. *)
Definition x_mach_body (contour_mach : list (Q * Q * Q))
    : nat * list (Q * Q) -> result (nat * list (Q * Q)) :=
  fun '(i, x_mach_array) =>
    match contour_mach !! i with
    | Some row => Ok (S i, <[i := (row.1.1 / 1000, row.2)]> x_mach_array)
    | None => Ok (S i, x_mach_array)
    end.

(** [df] is the table read from the csv file, one pair
    [(x_nozzle, y_nozzle)] per row.  Each loop over the rows tests its
    condition [len(df.index) + 1] times. *)
Definition nozzle_contour_to_mach (fuel : nat) (df : list (Q * Q))
    (radius_throat : Q) : result written :=
  let contour_mach := replicate (length df) (0, 0, 0) in
  '(_, contour_mach) ←
    while (S (length df)) (rows_left df)
      (contour_mach_body fuel df radius_throat) (O, contour_mach);
  let x_mach_array := replicate (length df) (0, 0) in
  '(_, x_mach_array) ←
    while (S (length df)) (rows_left df)
      (x_mach_body contour_mach) (O, x_mach_array);
  Ok (Written x_mach_array contour_mach).

(** ** Notions used in the statements and their proofs *)

(** The right side as a total function; it is what [right_side] returns
    away from [mach_no = 0]. *)
Definition rs_of (mach_no : Q) : Q :=
  1 / mach_no ^ 2
  * (2 * (1 + ((gamma - 1) * mach_no ^ 2) / 2) / (gamma + 1)) ^ 6.

(** An outcome other than [OutOfFuel] is an outcome of the program. *)
Definition decided {A : Type} (r : result A) : Prop := r <> OutOfFuel.

(** The specification gives its solver the flow regime as an explicit
    input.  [solve] is [area_to_mach] with the regime passed in, written
    from the specification's contract, to be compared with the source's
    sign test on [x_pos]. *)
Inductive FlowRegime : Type := Subsonic | Supersonic.

Definition solve (fuel : nat) (regime : FlowRegime)
    (radius_local radius_throat : Q) : result Q :=
  if radius_local <? radius_throat then Raise (InvalidGeometry radius_throat)
  else
    local_area_ratio ← py_div (radius_local ^ 2) (radius_throat ^ 2);
    let ls := local_area_ratio ^ 2 in
    rs ← right_side 1;
    i ← py_div rs ls;
    if (lower_limit <? i) && (i <? upper_limit) then Ok 1
    else
      match regime with
      | Subsonic =>
          st ← subsonic_loop fuel ls (State 1 (-0.1) i);
          Ok (around (st_mach_no st) 5)
      | Supersonic =>
          st ← supersonic_loop fuel ls (State 1 (-0.1 * -1) i);
          Ok (around (st_mach_no st) decimals)
      end.

(** The left side "ls" of the relation for a pair of radii:
    [((radius_local ** 2) / (radius_throat ** 2)) ** 2]. *)
Definition ls_of (radius_local radius_throat : Q) : Q :=
  (radius_local ^ 2 / radius_throat ^ 2) ^ 2.

(** The reading of "the failure is tagged with the offending point's
    index and position": index and position of the first row whose solve
    raises can be read off the exception the contour pass raises. *)
Definition failure_is_tagged : Prop :=
  exists tag : exn -> nat * Q,
    forall (fuel : nat) (df : list (Q * Q)) (radius_throat : Q)
           (j : nat) (row : Q * Q) (e e' : exn),
      df !! j = Some row ->
      area_to_mach fuel row.1 row.2 radius_throat = Raise e ->
      (forall j' row', (j' < j)%nat -> df !! j' = Some row' ->
         exists M, area_to_mach fuel row'.1 row'.2 radius_throat = Ok M) ->
      nozzle_contour_to_mach fuel df radius_throat = Raise e' ->
      tag e' = (j, row.1).




(** The sum [v^5 + v^4 u + ... + u^5], the cofactor of [v - u] in
    [v^6 - u^6]. *)
Definition sigma5 (u v : Q) : Q :=
  v^5 + v^4 * u + v^3 * u^2 + v^2 * u^3 + v * u^4 + u^5.

(** A Lipschitz constant of [rs_of] on the interval [[a, b]], [0 < a]. *)
Definition lipschitz (a b : Q) : Q :=
  2 * b * (6 * b ^ 2 * (5 + b ^ 2) ^ 5 + (5 + b ^ 2) ^ 6) / (46656 * (a ^ 2) ^ 2).

(** The two tests of the loops, on the ratio [i]. *)
Definition belowq (i : Q) : bool := i <? lower_limit.
Definition aboveq (i : Q) : bool := upper_limit <? i.

(** An inner loop with test [cq] and flip condition [fq], and an outer
    loop running the inner loop of [c1] and then that of [c2]:
    [while_below] is [inner belowq aboveq], [while_above] is
    [inner aboveq belowq], [supersonic_loop] is [outer belowq aboveq] and
    [subsonic_loop] is [outer aboveq belowq]. *)
Definition inner (cq fq : Q -> bool) (fuel : nat) (ls : Q)
    : state -> result state :=
  while fuel (fun st => cq (st_i st)) (advance ls fq).

Definition outer (c1 c2 : Q -> bool) (fuel : nat) (ls : Q)
    : state -> result state :=
  while fuel out_of_band
    (fun st => st' ← inner c1 c2 fuel ls st; inner c2 c1 fuel ls st').

(** The ratio [rs / ls] at a Mach number. *)
Definition ratio (ls m : Q) : Q := rs_of m / ls.


(** The Mach number [j] steps ahead of a state. *)
Definition point (st : state) (j : nat) : Q :=
  st_mach_no st + inject_Z (Z.of_nat j) * st_step_size st.





(** The first steps of the subsonic search as the program takes them, in
    binary64: [mach_no = 1] and then [n] times
    [mach_no = mach_no + step_size] with [step_size = -0.1] (the nearest
    binary64 number to it). *)
#[warnings="-inexact-float"]
Definition float_descent (n : nat) : float :=
  Nat.iter n (fun mach_no => (mach_no + (-0.1))%float) 1%float.


(** Two states of the search with the same Mach number and the same step,
    and ratios that are equal as numbers. *)
Definition same_state (s t : state) : Prop :=
  st_mach_no s = st_mach_no t /\ st_step_size s = st_step_size t
  /\ st_i s == st_i t.

(** Two outcomes of the same kind, with values related by [R]. *)
Definition same_outcome {A : Type} (R : A -> A -> Prop) (r1 r2 : result A)
    : Prop :=
  match r1, r2 with
  | Ok a, Ok b => R a b
  | Raise e1, Raise e2 => e1 = e2
  | OutOfFuel, OutOfFuel => True
  | _, _ => False
  end.

(** Whether a call came back with a value. *)
Definition is_ok {A : Type} (r : result A) : bool :=
  match r with
  | Ok _ => true
  | _ => false
  end.
(** * Properties *)

(** ** Comparisons and divisions *)

Lemma Qlt_bool_iff (x y : Q) : (x <? y) = true <-> x < y.
Proof.
  unfold Qlt_bool. rewrite negb_true_iff.
  split; intros H.
  - apply Qnot_le_lt. intros Hle. apply Qle_bool_iff in Hle. congruence.
  - destruct (Qle_bool y x) eqn:E; [|reflexivity].
    apply Qle_bool_iff in E. apply Qle_not_lt in E. contradiction.
Qed.

Lemma Qlt_bool_false (x y : Q) : (x <? y) = false <-> y <= x.
Proof.
  unfold Qlt_bool. rewrite negb_false_iff. apply Qle_bool_iff.
Qed.

#[global] Instance Qlt_bool_proper : Proper (Qeq ==> Qeq ==> eq) Qlt_bool.
Proof.
  intros x x' Hx y y' Hy.
  destruct (x' <? y') eqn:E.
  - apply Qlt_bool_iff. apply Qlt_bool_iff in E. now rewrite Hx, Hy.
  - apply Qlt_bool_false. apply Qlt_bool_false in E. now rewrite Hx, Hy.
Qed.

Lemma py_div_ok (a b : Q) : ~ b == 0 -> py_div a b = Ok (a / b).
Proof.
  intros Hb. unfold py_div.
  destruct (Qeq_bool b 0) eqn:E; [|reflexivity].
  apply Qeq_bool_iff in E. contradiction.
Qed.

Lemma py_div_zero (a b : Q) : b == 0 -> py_div a b = Raise ZeroDivisionError.
Proof.
  intros Hb. unfold py_div. apply Qeq_bool_iff in Hb. now rewrite Hb.
Qed.

Lemma py_pow_exponent (b : Q) : py_pow b ((gamma + 1) / (gamma - 1)) = b ^ 6.
Proof. reflexivity. Qed.

Lemma right_side_ok (m : Q) : ~ m == 0 -> right_side m = Ok (rs_of m).
Proof.
  intros Hm. unfold right_side.
  rewrite py_div_ok, py_pow_exponent; [reflexivity|].
  intros H. apply Hm. 
  destruct (Qeq_dec m 0) as [|Hn]; [assumption|].
  exfalso. revert H. nra.
Qed.

Lemma right_side_zero (m : Q) : m == 0 -> right_side m = Raise ZeroDivisionError.
Proof.
  intros Hm. unfold right_side. rewrite py_div_zero; [reflexivity|].
  rewrite Hm. reflexivity.
Qed.

Lemma rs_of_closed_form (m : Q) : ~ m == 0 -> rs_of m == ((5 + m ^ 2) / 6) ^ 6 / m ^ 2.
Proof.
  intros Hm. unfold rs_of, gamma. field. exact Hm.
Qed.

#[global] Instance rs_of_proper : Proper (Qeq ==> Qeq) rs_of.
Proof. intros m m' H. unfold rs_of. now rewrite H. Qed.

Lemma rs_of_one : rs_of 1 == 1.
Proof. reflexivity. Qed.


(** ** Fuel *)

Lemma bind_decided {A B : Type} (r : result A) (k : A -> result B) :
  decided (r ≫= k) -> decided r.
Proof. destruct r; cbn; unfold decided; congruence. Qed.

Lemma while_fuel_mono {St : Type} (cond : St -> bool) (body body' : St -> result St) :
  (forall s, decided (body s) -> body' s = body s) ->
  forall n m st, (n <= m)%nat ->
    decided (while n cond body st) ->
    while m cond body' st = while n cond body st.
Proof.
  intros Hbody n. induction n as [|n IH]; intros m st Hle Hd.
  - now elim Hd.
  - destruct m as [|m]; [lia|]. cbn in *.
    destruct (cond st); [|reflexivity].
    pose proof (bind_decided _ _ Hd) as Hb.
    rewrite (Hbody _ Hb).
    destruct (body st) as [st'| |]; cbn in *; try reflexivity.
    apply IH; [lia|assumption].
Qed.

Lemma bind_fuel_mono {A B : Type} (r r' : result A) (k k' : A -> result B) :
  (decided r -> r' = r) ->
  (forall a, decided (k a) -> k' a = k a) ->
  decided (r ≫= k) -> r' ≫= k' = r ≫= k.
Proof.
  intros Hr Hk Hd. rewrite (Hr (bind_decided _ _ Hd)).
  destruct r; cbn in *; auto.
Qed.






(** ** The guard, the regime and the throat *)


(** What [area_to_mach] does once the guard is passed and the throat
    radius is not zero. *)
Lemma area_to_mach_unfold (fuel : nat) (x_pos radius_local radius_throat : Q) :
  radius_throat <= radius_local -> ~ radius_throat == 0 ->
  area_to_mach fuel x_pos radius_local radius_throat =
  let ls := ls_of radius_local radius_throat in
  let i := rs_of 1 / ls in
  if Qeq_bool ls 0 then Raise ZeroDivisionError
  else if (lower_limit <? i) && (i <? upper_limit) then Ok 1
  else if x_pos <? 0 then
    st ← subsonic_loop fuel ls (State 1 (-0.1) i);
    Ok (around (st_mach_no st) 5)
  else
    st ← supersonic_loop fuel ls (State 1 (-0.1 * -1) i);
    Ok (around (st_mach_no st) decimals).
Proof.
  intros Hge Hrt. unfold area_to_mach.
  apply Qlt_bool_false in Hge. rewrite Hge.
  rewrite py_div_ok by (intros H; apply Hrt; revert H; nra).
  cbn [mbind result_bind].
  rewrite right_side_ok by discriminate.
  cbn [mbind result_bind]. fold (ls_of radius_local radius_throat).
  unfold py_div.
  destruct (Qeq_bool (ls_of radius_local radius_throat) 0); [reflexivity|].
  cbn [mbind result_bind]. cbv zeta.
  destruct (x_pos <? 0); reflexivity.
Qed.

Lemma ls_of_pos (radius_local radius_throat : Q) :
  ~ radius_throat == 0 -> ~ radius_local == 0 ->
  0 < ls_of radius_local radius_throat.
Proof.
  intros Hrt Hrl. unfold ls_of.
  assert (H1 : 0 < radius_local ^ 2) by nra.
  assert (H2 : 0 < radius_throat ^ 2) by nra.
  assert (H3 : 0 < radius_local ^ 2 / radius_throat ^ 2).
  { apply Qlt_shift_div_l; [assumption|]. now rewrite Qmult_0_l. }
  nra.
Qed.

Lemma ls_of_throat (radius_local radius_throat : Q) :
  ~ radius_throat == 0 -> radius_local == radius_throat ->
  ls_of radius_local radius_throat == 1.
Proof.
  intros Hrt Heq. unfold ls_of. rewrite Heq. field. exact Hrt.
Qed.

(** C4.  A local radius below the throat radius is rejected with the
    InvalidGeometry exception, whatever the regime and before any loop is
    entered (the outcome needs no fuel at all); for positive radii this is
    the case of an area ratio below 1, such as 0.5. *)
Theorem invalid_geometry_rejected (fuel : nat) (x_pos radius_local radius_throat : Q) :
  radius_local < radius_throat
  \/ (0 < radius_local /\ 0 < radius_throat
      /\ radius_local ^ 2 / radius_throat ^ 2 < 1) ->
  area_to_mach fuel x_pos radius_local radius_throat
    = Raise (InvalidGeometry radius_throat)
  /\ area_to_mach 0 x_pos radius_local radius_throat
    = Raise (InvalidGeometry radius_throat).
Proof.
  intros H.
  assert (Hlt : radius_local < radius_throat).
  { destruct H as [H|(Hl & Ht & Hr)]; [assumption|].
    apply Qnot_le_lt. intros Hle.
    assert (Hsq : radius_throat ^ 2 <= radius_local ^ 2) by nra.
    assert (Hpos : 0 < radius_throat ^ 2) by nra.
    apply (Qlt_not_le _ _ Hr).
    apply Qle_shift_div_l; [assumption|]. now rewrite Qmult_1_l. }
  apply Qlt_bool_iff in Hlt.
  unfold area_to_mach. now rewrite Hlt.
Qed.

Lemma invalid_geometry_rejected_witness :
  area_to_mach 7 0 1 2 = Raise (InvalidGeometry 2)
  /\ area_to_mach 0 0 1 2 = Raise (InvalidGeometry 2).
Proof.
  apply (invalid_geometry_rejected 7 0 1 2). left. reflexivity.
Defined.

(** C9.  The branch is chosen by the sign of the axial position alone:
    a negative [x_pos] runs the solver in the Subsonic regime, any other
    [x_pos] (zero included) in the Supersonic regime, whatever the radii. *)
Theorem regime_by_position_sign (fuel : nat) (x_pos radius_local radius_throat : Q) :
  (x_pos < 0 ->
   area_to_mach fuel x_pos radius_local radius_throat
   = solve fuel Subsonic radius_local radius_throat)
  /\ (0 <= x_pos ->
      area_to_mach fuel x_pos radius_local radius_throat
      = solve fuel Supersonic radius_local radius_throat).
Proof.
  split; intros Hx; unfold area_to_mach, solve.
  - apply Qlt_bool_iff in Hx. rewrite Hx. reflexivity.
  - apply Qlt_bool_false in Hx. rewrite Hx. reflexivity.
Qed.

(** On the throat band, edges included, the loop condition is tested once
    and Mach 1 comes back. *)
Lemma throat_band_edge (fuel : nat) (x_pos radius_local radius_throat : Q) :
  ~ radius_throat == 0 -> radius_throat <= radius_local ->
  lower_limit <= 1 / ls_of radius_local radius_throat <= upper_limit ->
  area_to_mach (S fuel) x_pos radius_local radius_throat = Ok 1.
Proof.
  intros Hrt Hge [Hlo Hup].
  rewrite area_to_mach_unfold by assumption. cbv zeta.
  destruct (Qeq_bool (ls_of radius_local radius_throat) 0) eqn:E.
  { apply Qeq_bool_iff in E. rewrite E in Hlo.
    exfalso. revert Hlo. change (1 / 0) with 0. unfold lower_limit, tolerance. lra. }
  assert (Hi : rs_of 1 / ls_of radius_local radius_throat
               == 1 / ls_of radius_local radius_throat)
    by now rewrite rs_of_one.
  destruct ((lower_limit <? rs_of 1 / ls_of radius_local radius_throat)
            && (rs_of 1 / ls_of radius_local radius_throat <? upper_limit));
    [reflexivity|].
  assert (Hout : out_of_band
            (State 1 (-0.1) (rs_of 1 / ls_of radius_local radius_throat))
            = false
          /\ out_of_band
            (State 1 (-0.1 * -1) (rs_of 1 / ls_of radius_local radius_throat))
            = false).
  { unfold out_of_band, below, above. cbn [st_i]. rewrite Hi.
    apply Qlt_bool_false in Hlo, Hup. now rewrite Hlo, Hup. }
  destruct Hout as [Ho1 Ho2].
  unfold subsonic_loop, supersonic_loop. cbn [while].
  rewrite Ho1, Ho2. cbn [mbind result_bind st_mach_no].
  destruct (x_pos <? 0); reflexivity.
Qed.

(** C2.  At the throat ([radius_local] equal to [radius_throat], area
    ratio exactly 1) the solver returns exactly 1 in both regimes; more
    generally it returns 1 at once, for any [x_pos], whenever the ratio of
    the right side at Mach 1 to the target lies strictly inside the
    tolerance band, and also (after one test of the loop condition) when it
    lies on the band's edge. *)
Theorem throat_returns_one (fuel : nat) (x_pos radius_local radius_throat : Q) :
  ~ radius_throat == 0 ->
  (radius_local == radius_throat ->
   area_to_mach fuel x_pos radius_local radius_throat = Ok 1)
  /\ (radius_throat <= radius_local ->
      lower_limit < 1 / ls_of radius_local radius_throat < upper_limit ->
      area_to_mach fuel x_pos radius_local radius_throat = Ok 1)
  /\ (radius_throat <= radius_local ->
      lower_limit <= 1 / ls_of radius_local radius_throat <= upper_limit ->
      area_to_mach (S fuel) x_pos radius_local radius_throat = Ok 1).
Proof.
  intros Hrt.
  assert (Hstrict : radius_throat <= radius_local ->
      lower_limit < 1 / ls_of radius_local radius_throat < upper_limit ->
      area_to_mach fuel x_pos radius_local radius_throat = Ok 1).
  { intros Hge [Hlo Hup].
    rewrite area_to_mach_unfold by assumption. cbv zeta.
    destruct (Qeq_bool (ls_of radius_local radius_throat) 0) eqn:E.
    { apply Qeq_bool_iff in E. rewrite E in Hlo.
      exfalso. revert Hlo. change (1 / 0) with 0. unfold lower_limit, tolerance. lra. }
    assert (Hi : rs_of 1 / ls_of radius_local radius_throat
                 == 1 / ls_of radius_local radius_throat)
      by now rewrite rs_of_one.
    rewrite Hi.
    apply Qlt_bool_iff in Hlo, Hup. now rewrite Hlo, Hup. }
  split; [|split].
  - intros Heq. apply Hstrict; [rewrite Heq; apply Qle_refl|].
    rewrite (ls_of_throat _ _ Hrt Heq). split; reflexivity.
  - exact Hstrict.
  - intros Hge Hband. now apply throat_band_edge.
Qed.

Lemma throat_returns_one_witness :
  area_to_mach 0 (-1) 4.3263 4.3263 = Ok 1
  /\ area_to_mach 0 0 4.3263 4.3263 = Ok 1.
Proof.
  split.
  - apply (proj1 (throat_returns_one 0 (-1) 4.3263 4.3263 ltac:(discriminate))).
    reflexivity.
  - apply (proj1 (throat_returns_one 0 0 4.3263 4.3263 ltac:(discriminate))).
    reflexivity.
Defined.

(** ** The contour pass *)

Section Contour.

Variables (fuel : nat) (df : list (Q * Q)) (radius_throat : Q).

(** Rows [i], [i+1], ... all solve. *)
Let solves_from (i : nat) : Prop :=
  forall j row, (i <= j)%nat -> df !! j = Some row ->
    exists M, area_to_mach fuel row.1 row.2 radius_throat = Ok M.

Lemma contour_mach_body_row (i : nat) (row : Q * Q) (cm : list (Q * Q * Q)) :
  df !! i = Some row ->
  contour_mach_body fuel df radius_throat (i, cm)
  = local_mach ← area_to_mach fuel row.1 row.2 radius_throat;
    Ok (S i, <[i := (row.1, row.2, local_mach)]> cm).
Proof.
  intros Hrow. unfold contour_mach_body.
  rewrite !list_lookup_fmap, Hrow. reflexivity.
Qed.

Lemma first_loop_ok (k : nat) : forall (i : nat) (cm : list (Q * Q * Q)),
  (i + k = length df)%nat -> length cm = length df -> solves_from i ->
  exists cm',
    while (S k) (rows_left df) (contour_mach_body fuel df radius_throat) (i, cm)
      = Ok (length df, cm')
    /\ length cm' = length df
    /\ (forall j, (j < i)%nat -> cm' !! j = cm !! j)
    /\ (forall j row, (i <= j)%nat -> df !! j = Some row ->
          exists M, area_to_mach fuel row.1 row.2 radius_throat = Ok M
                    /\ cm' !! j = Some (row.1, row.2, M)).
Proof.
  induction k as [|k IH]; intros i cm Hik Hlen Hsolve.
  - exists cm. cbn [while rows_left].
    replace (i <? length df)%nat with false
      by (symmetry; apply Nat.ltb_ge; lia).
    replace i with (length df) by lia.
    repeat split; auto.
    intros j row Hj Hrow. apply lookup_lt_Some in Hrow. lia.
  - assert (Hi : (i < length df)%nat) by lia.
    destruct (lookup_lt_is_Some_2 df i Hi) as [row Hrow].
    destruct (Hsolve i row (Nat.le_refl i) Hrow) as [M HM].
    destruct (IH (S i) (<[i := (row.1, row.2, M)]> cm)) as (cm' & Hrun & Hl & Hold & Hnew).
    { lia. }
    { now rewrite length_insert. }
    { intros j r Hj. apply Hsolve. lia. }
    exists cm'. split; [|split; [exact Hl|split]].
    + change (while (S (S k)) ?c ?b ?s)
        with (if c s then st' ← b s; while (S k) c b st' else Ok s).
      cbn [rows_left].
      replace (i <? length df)%nat with true
        by (symmetry; apply Nat.ltb_lt; lia).
      rewrite (contour_mach_body_row i row cm Hrow), HM.
      exact Hrun.
    + intros j Hj. rewrite Hold by lia.
      apply list_lookup_insert_ne. lia.
    + intros j r Hj Hr.
      destruct (decide (j = i)) as [->|Hne].
      * rewrite Hrow in Hr. injection Hr as <-.
        exists M. split; [exact HM|].
        rewrite Hold by lia.
        apply list_lookup_insert_eq. lia.
      * apply Hnew; [lia|exact Hr].
Qed.

Lemma first_loop_raises (k : nat) : forall (i j : nat) (cm : list (Q * Q * Q))
    (row : Q * Q) (e : exn),
  (i + k = length df)%nat -> (i <= j)%nat ->
  df !! j = Some row ->
  area_to_mach fuel row.1 row.2 radius_throat = Raise e ->
  (forall j' row', (i <= j' < j)%nat -> df !! j' = Some row' ->
     exists M, area_to_mach fuel row'.1 row'.2 radius_throat = Ok M) ->
  while (S k) (rows_left df) (contour_mach_body fuel df radius_throat) (i, cm)
    = Raise e.
Proof.
  induction k as [|k IH]; intros i j cm row e Hik Hij Hrow He Hbefore.
  - apply lookup_lt_Some in Hrow. lia.
  - assert (Hi : (i < length df)%nat) by lia.
    change (while (S (S k)) ?c ?b ?s)
      with (if c s then st' ← b s; while (S k) c b st' else Ok s).
    cbn [rows_left].
    replace (i <? length df)%nat with true
      by (symmetry; apply Nat.ltb_lt; lia).
    destruct (decide (i = j)) as [->|Hne].
    + rewrite (contour_mach_body_row j row cm Hrow), He. reflexivity.
    + destruct (lookup_lt_is_Some_2 df i Hi) as [r Hr].
      destruct (Hbefore i r ltac:(lia) Hr) as [M HM].
      rewrite (contour_mach_body_row i r cm Hr), HM.
      cbn [mbind result_bind].
      apply (IH (S i) j _ row e); auto; try lia.
      intros j' row' Hj'. apply Hbefore. lia.
Qed.

Lemma x_mach_body_row (cm : list (Q * Q * Q)) (i : nat) (row : Q * Q * Q)
    (xm : list (Q * Q)) :
  cm !! i = Some row ->
  x_mach_body cm (i, xm) = Ok (S i, <[i := (row.1.1 / 1000, row.2)]> xm).
Proof. intros Hrow. unfold x_mach_body. now rewrite Hrow. Qed.

Lemma second_loop_ok (cm : list (Q * Q * Q)) (k : nat) :
  forall (i : nat) (xm : list (Q * Q)),
  (i + k = length df)%nat -> length cm = length df -> length xm = length df ->
  exists xm',
    while (S k) (rows_left df) (x_mach_body cm) (i, xm) = Ok (length df, xm')
    /\ length xm' = length df
    /\ (forall j, (j < i)%nat -> xm' !! j = xm !! j)
    /\ (forall j row, (i <= j)%nat -> cm !! j = Some row ->
          xm' !! j = Some (row.1.1 / 1000, row.2)).
Proof.
  intros i xm. revert i xm.
  induction k as [|k IH]; intros i xm Hik Hcm Hxm.
  - exists xm. cbn [while rows_left].
    replace (i <? length df)%nat with false
      by (symmetry; apply Nat.ltb_ge; lia).
    replace i with (length df) by lia.
    repeat split; auto.
    intros j row Hj Hrow. apply lookup_lt_Some in Hrow. lia.
  - assert (Hi : (i < length cm)%nat) by lia.
    destruct (lookup_lt_is_Some_2 cm i Hi) as [row Hrow].
    destruct (IH (S i) (<[i := (row.1.1 / 1000, row.2)]> xm))
      as (xm' & Hrun & Hl & Hold & Hnew).
    { lia. }
    { assumption. }
    { now rewrite length_insert. }
    exists xm'. split; [|split; [exact Hl|split]].
    + change (while (S (S k)) ?c ?b ?s)
        with (if c s then st' ← b s; while (S k) c b st' else Ok s).
      cbn [rows_left].
      replace (i <? length df)%nat with true
        by (symmetry; apply Nat.ltb_lt; lia).
      rewrite (x_mach_body_row cm i row xm Hrow). exact Hrun.
    + intros j Hj. rewrite Hold by lia.
      apply list_lookup_insert_ne. lia.
    + intros j r Hj Hr.
      destruct (decide (j = i)) as [->|Hne].
      * rewrite Hrow in Hr. injection Hr as <-.
        rewrite Hold by lia.
        apply list_lookup_insert_eq. lia.
      * apply Hnew; [lia|exact Hr].
Qed.

End Contour.

(** C5.  On a contour whose rows all solve, the pass writes one triple per
    row, in the order of the rows: the table has as many rows as the
    input, and its [j]-th row holds the position and the radius of the
    [j]-th input row, with the Mach number solved for that row. *)
Theorem contour_order_preserved (fuel : nat) (df : list (Q * Q)) (radius_throat : Q) :
  (forall j row, df !! j = Some row ->
     exists M, area_to_mach fuel row.1 row.2 radius_throat = Ok M) ->
  exists out,
    nozzle_contour_to_mach fuel df radius_throat = Ok out
    /\ length (nozzle_Q1D_xym out) = length df
    /\ (forall j x y, df !! j = Some (x, y) ->
          exists M, area_to_mach fuel x y radius_throat = Ok M
                    /\ nozzle_Q1D_xym out !! j = Some (x, y, M)).
Proof.
  intros Hsolve.
  destruct (first_loop_ok fuel df radius_throat (length df) 0
              (replicate (length df) (0, 0, 0)))
    as (cm & Hrun & Hlen & _ & Hrows).
  { reflexivity. }
  { apply length_replicate. }
  { intros j row _. apply Hsolve. }
  destruct (second_loop_ok df cm (length df) 0 (replicate (length df) (0, 0)))
    as (xm & Hrun2 & _).
  { reflexivity. }
  { exact Hlen. }
  { apply length_replicate. }
  exists (Written xm cm). split; [|split].
  - unfold nozzle_contour_to_mach. rewrite Hrun. cbn [mbind result_bind].
    rewrite Hrun2. reflexivity.
  - exact Hlen.
  - intros j x y Hrow. apply (Hrows j (x, y)); [lia|exact Hrow].
Qed.

Lemma contour_order_preserved_witness :
  exists out,
    nozzle_contour_to_mach 100 [(-10, 5); (0, 4.3263); (10, 5)] 4.3263 = Ok out
    /\ length (nozzle_Q1D_xym out) = 3%nat
    /\ (forall j x y, [(-10, 5); (0, 4.3263); (10, 5)] !! j = Some (x, y) ->
          exists M, area_to_mach 100 x y 4.3263 = Ok M
                    /\ nozzle_Q1D_xym out !! j = Some (x, y, M)).
Proof.
  apply (contour_order_preserved 100 [(-10, 5); (0, 4.3263); (10, 5)] 4.3263).
  intros [|[|[|j]]] row Hrow; try discriminate;
    injection Hrow as <-; eexists; vm_compute; reflexivity.
Defined.

(** C6, as amended.  When the solve of a row raises an exception and the
    rows before it solve, the contour pass raises that same exception, so
    it writes nothing and no later row is looked at.  The exception is the
    solver's own: nothing is added to it. *)
Theorem contour_failure_propagates (fuel : nat) (df : list (Q * Q))
    (radius_throat : Q) (j : nat) (row : Q * Q) (e : exn) :
  df !! j = Some row ->
  area_to_mach fuel row.1 row.2 radius_throat = Raise e ->
  (forall j' row', (j' < j)%nat -> df !! j' = Some row' ->
     exists M, area_to_mach fuel row'.1 row'.2 radius_throat = Ok M) ->
  nozzle_contour_to_mach fuel df radius_throat = Raise e.
Proof.
  intros Hrow He Hbefore. unfold nozzle_contour_to_mach.
  rewrite (first_loop_raises fuel df radius_throat (length df) 0 j _ row e);
    auto; try lia.
  intros j' row' Hj'. apply Hbefore. lia.
Qed.

Lemma contour_failure_propagates_witness :
  nozzle_contour_to_mach 100 [(0, 3); (5, 1)] 2 = Raise (InvalidGeometry 2).
Proof.
  apply (contour_failure_propagates 100 [(0, 3); (5, 1)] 2 1 (5, 1)).
  - reflexivity.
  - reflexivity.
  - intros [|j'] row' Hj' Hrow'; [|lia].
    injection Hrow' as <-. eexists. vm_compute. reflexivity.
Defined.

(** C6, as stated, fails: two contours whose offending rows differ in
    index and in position raise the very same exception, so neither can
    be read off it. *)
Lemma failure_not_tagged : ~ failure_is_tagged.
Proof.
  intros [tag Htag].
  assert (H1 : tag (InvalidGeometry 2) = (0%nat, -1)).
  { apply (Htag 100%nat [(-1, 1)] 2 0%nat (-1, 1) (InvalidGeometry 2)).
    - reflexivity.
    - reflexivity.
    - intros j' row' Hj'. lia.
    - reflexivity. }
  assert (H2 : tag (InvalidGeometry 2) = (1%nat, 5)).
  { apply (Htag 100%nat [(0, 3); (5, 1)] 2 1%nat (5, 1) (InvalidGeometry 2)).
    - reflexivity.
    - reflexivity.
    - intros [|j'] row' Hj' Hrow'; [|lia].
      injection Hrow' as <-. eexists. vm_compute. reflexivity.
    - vm_compute. reflexivity. }
  rewrite H1 in H2. discriminate.
Qed.

(** ** Rounding and the tolerance band *)




(** ** The right side of the relation as a function of the Mach number *)


Lemma Qpower_succ (x : Q) (n : nat) : x ^ Z.of_nat (S n) == x * x ^ Z.of_nat n.
Proof.
  rewrite Nat2Z.inj_succ, <- Z.add_1_l.
  rewrite Qpower_plus' by lia. now rewrite Qpower_1_r.
Qed.

Lemma Qpower_base_le (n : nat) (u v : Q) :
  0 <= u -> u <= v -> u ^ Z.of_nat n <= v ^ Z.of_nat n.
Proof.
  intros Hu Huv. induction n as [|n IH].
  - apply Qle_refl.
  - rewrite !Qpower_succ.
    assert (0 <= u ^ Z.of_nat n) by (apply Qpower_0_le; assumption).
    nra.
Qed.

Lemma Qpower_pos_base_le (p : positive) (u v : Q) :
  0 <= u -> u <= v -> u ^ Zpos p <= v ^ Zpos p.
Proof.
  intros Hu Huv. rewrite <- (positive_nat_Z p). now apply Qpower_base_le.
Qed.

Lemma sigma5_lower (u v : Q) : 0 <= u -> u <= v -> 6 * u ^ 5 <= sigma5 u v.
Proof.
  intros Hu Huv. unfold sigma5.
  pose proof (Qpower_pos_base_le 1 u v Hu Huv) as H1.
  pose proof (Qpower_pos_base_le 2 u v Hu Huv) as H2.
  pose proof (Qpower_pos_base_le 3 u v Hu Huv) as H3.
  pose proof (Qpower_pos_base_le 4 u v Hu Huv) as H4.
  pose proof (Qpower_pos_base_le 5 u v Hu Huv) as H5.
  pose proof (Qpower_0_le u 1 Hu) as P1.
  pose proof (Qpower_0_le u 2 Hu) as P2.
  pose proof (Qpower_0_le u 3 Hu) as P3.
  pose proof (Qpower_0_le u 4 Hu) as P4.
  assert (A4 : u ^ 4 * u <= v ^ 4 * u) by nra.
  assert (A3 : u ^ 3 * u ^ 2 <= v ^ 3 * u ^ 2) by nra.
  assert (A2 : u ^ 2 * u ^ 3 <= v ^ 2 * u ^ 3) by nra.
  assert (A1 : u * u ^ 4 <= v * u ^ 4) by nra.
  assert (E4 : u ^ 4 * u == u ^ 5) by ring.
  assert (E3 : u ^ 3 * u ^ 2 == u ^ 5) by ring.
  assert (E2 : u ^ 2 * u ^ 3 == u ^ 5) by ring.
  assert (E1 : u * u ^ 4 == u ^ 5) by ring.
  lra.
Qed.

Lemma sigma5_upper (u v : Q) : 0 <= u -> u <= v -> sigma5 u v <= 6 * v ^ 5.
Proof.
  intros Hu Huv. unfold sigma5.
  assert (Hv : 0 <= v) by lra.
  pose proof (Qpower_pos_base_le 1 u v Hu Huv) as H1.
  pose proof (Qpower_pos_base_le 2 u v Hu Huv) as H2.
  pose proof (Qpower_pos_base_le 3 u v Hu Huv) as H3.
  pose proof (Qpower_pos_base_le 4 u v Hu Huv) as H4.
  pose proof (Qpower_pos_base_le 5 u v Hu Huv) as H5.
  pose proof (Qpower_0_le v 1 Hv) as P1.
  pose proof (Qpower_0_le v 2 Hv) as P2.
  pose proof (Qpower_0_le v 3 Hv) as P3.
  pose proof (Qpower_0_le v 4 Hv) as P4.
  assert (A4 : v ^ 4 * u <= v ^ 4 * v) by nra.
  assert (A3 : v ^ 3 * u ^ 2 <= v ^ 3 * v ^ 2) by nra.
  assert (A2 : v ^ 2 * u ^ 3 <= v ^ 2 * v ^ 3) by nra.
  assert (A1 : v * u ^ 4 <= v * v ^ 4) by nra.
  assert (E4 : v ^ 4 * v == v ^ 5) by ring.
  assert (E3 : v ^ 3 * v ^ 2 == v ^ 5) by ring.
  assert (E2 : v ^ 2 * v ^ 3 == v ^ 5) by ring.
  assert (E1 : v * v ^ 4 == v ^ 5) by ring.
  lra.
Qed.

(** The difference of two right sides over a common denominator. *)
Lemma rs_of_diff (x y : Q) : ~ x == 0 -> ~ y == 0 ->
  rs_of y - rs_of x ==
  ((5 + y^2)^6 * x^2 - (5 + x^2)^6 * y^2) / (46656 * x^2 * y^2).
Proof.
  intros Hx Hy. unfold rs_of, gamma. field. split; assumption.
Qed.

Lemma numerator_factor (a b : Q) :
  (5 + b)^6 * a - (5 + a)^6 * b
  == (b - a) * (a * sigma5 (5 + a) (5 + b) - (5 + a)^6).
Proof. unfold sigma5. ring. Qed.

Lemma numerator_factor' (a b : Q) :
  (5 + b)^6 * a - (5 + a)^6 * b
  == (b - a) * (b * sigma5 (5 + a) (5 + b) - (5 + b)^6).
Proof. unfold sigma5. ring. Qed.

Lemma sq_le (x y : Q) : 0 <= x -> x <= y -> x ^ 2 <= y ^ 2.
Proof. intros. nra. Qed.

Lemma Qdiv_nonneg (n d : Q) : 0 <= n -> 0 < d -> 0 <= n / d.
Proof.
  intros Hn Hd. apply Qle_shift_div_l; [assumption|]. now rewrite Qmult_0_l.
Qed.

(** The right side grows with the Mach number above Mach 1 ... *)
Lemma rs_of_increasing (x y : Q) : 1 <= x -> x <= y -> rs_of x <= rs_of y.
Proof.
  intros Hx Hxy.
  assert (Ha : 1 <= x ^ 2) by nra.
  assert (Hab : x ^ 2 <= y ^ 2) by (apply sq_le; lra).
  assert (Hd : 0 < 46656 * x ^ 2 * y ^ 2) by nra.
  assert (Hx0 : ~ x == 0) by (intros E; rewrite E in Hx; lra).
  assert (Hy0 : ~ y == 0) by (intros E; rewrite E in Hxy; lra).
  cut (0 <= rs_of y - rs_of x); [lra|].
  rewrite (rs_of_diff x y Hx0 Hy0), numerator_factor.
  clear Hx0 Hy0.
  set (a := x ^ 2) in *. set (b := y ^ 2) in *.
  apply Qdiv_nonneg; [|assumption].
  apply Qmult_le_0_compat; [lra|].
  pose proof (sigma5_lower (5 + a) (5 + b) ltac:(lra) ltac:(lra)) as HS.
  assert (Hu5 : 0 <= (5 + a) ^ 5) by (apply Qpower_0_le; lra).
  assert (E : (5 + a) ^ 6 == (5 + a) * (5 + a) ^ 5) by ring.
  rewrite E.
  assert (0 <= sigma5 (5 + a) (5 + b)) by lra.
  nra.
Qed.

(** ... and falls with it below Mach 1. *)
Lemma rs_of_decreasing (x y : Q) : 0 < x -> x <= y -> y <= 1 -> rs_of y <= rs_of x.
Proof.
  intros Hx Hxy Hy.
  assert (Ha : 0 < x ^ 2) by nra.
  assert (Hb : y ^ 2 <= 1) by nra.
  assert (Hab : x ^ 2 <= y ^ 2) by (apply sq_le; lra).
  assert (Hd : 0 < 46656 * x ^ 2 * y ^ 2) by nra.
  assert (Hx0 : ~ x == 0) by (intros E; rewrite E in Hx; lra).
  assert (Hy0 : ~ y == 0) by (intros E; rewrite E in Hxy; lra).
  cut (0 <= - (rs_of y - rs_of x)); [lra|].
  rewrite (rs_of_diff x y Hx0 Hy0), numerator_factor'.
  clear Hx0 Hy0.
  set (a := x ^ 2) in *. set (b := y ^ 2) in *.
  assert (Hn : (b - a) * (b * sigma5 (5 + a) (5 + b) - (5 + b) ^ 6) <= 0).
  { pose proof (sigma5_upper (5 + a) (5 + b) ltac:(lra) ltac:(lra)) as HS.
    assert (Hv5 : 0 <= (5 + b) ^ 5) by (apply Qpower_0_le; lra).
    assert (E : (5 + b) ^ 6 == (5 + b) * (5 + b) ^ 5) by ring.
    rewrite E.
    assert (b * sigma5 (5 + a) (5 + b) - (5 + b) * (5 + b) ^ 5 <= 0) by nra.
    nra. }
  set (n := (b - a) * (b * sigma5 (5 + a) (5 + b) - (5 + b) ^ 6)) in *.
  assert (E : - (n / (46656 * a * b)) == (- n) / (46656 * a * b))
    by (field; lra).
  rewrite E. apply Qdiv_nonneg; lra.
Qed.




Lemma lipschitz_pos (a b : Q) : 0 < a -> a <= b -> 0 < lipschitz a b.
Proof.
  intros Ha Hab. unfold lipschitz.
  assert (0 < (5 + b ^ 2) ^ 5) by (apply Qpower_0_lt; nra).
  assert (0 < (5 + b ^ 2) ^ 6) by (apply Qpower_0_lt; nra).
  assert (0 < b ^ 2) by nra.
  assert (0 < a ^ 2) by nra.
  apply Qlt_shift_div_l; [nra|]. rewrite Qmult_0_l. nra.
Qed.



(** ** One inner loop *)

Lemma loops_as_inner_outer (fuel : nat) (ls : Q) :
  while_below fuel ls = inner belowq aboveq fuel ls
  /\ while_above fuel ls = inner aboveq belowq fuel ls
  /\ supersonic_loop fuel ls = outer belowq aboveq fuel ls
  /\ subsonic_loop fuel ls = outer aboveq belowq fuel ls.
Proof. repeat split; reflexivity. Qed.

#[global] Instance ratio_proper : Proper (Qeq ==> Qeq ==> Qeq) ratio.
Proof. intros l l' Hl m m' Hm. unfold ratio. now rewrite Hl, Hm. Qed.






Section Inner.

Variables (cq fq : Q -> bool) (ls : Q).
Hypothesis cq_proper : Proper (Qeq ==> eq) cq.
Hypothesis fq_proper : Proper (Qeq ==> eq) fq.
Hypothesis exclusive : forall i, fq i = true -> cq i = false.
Hypothesis ls_nonzero : ~ ls == 0.



End Inner.

(** ** The outer loop *)

Lemma inner_fuel_mono (cq fq : Q -> bool) (n m : nat) (ls : Q) (st : state) :
  (n <= m)%nat -> decided (inner cq fq n ls st) ->
  inner cq fq m ls st = inner cq fq n ls st.
Proof. intros. apply while_fuel_mono; auto. Qed.


Lemma outer_fuel_mono (c1 c2 : Q -> bool) (n m : nat) (ls : Q) (st : state) :
  (n <= m)%nat -> decided (outer c1 c2 n ls st) ->
  outer c1 c2 m ls st = outer c1 c2 n ls st.
Proof.
  intros Hle. apply while_fuel_mono; [|assumption].
  intros s. apply bind_fuel_mono.
  - now apply inner_fuel_mono.
  - intros a. now apply inner_fuel_mono.
Qed.




Section Outer.

Variables (c1 c2 : Q -> bool) (ls : Q).

(** [R1 d] and [R2 d] describe the states in which the inner loop of [c1],
    respectively of [c2], is about to run, with at most [d] flips of the
    step still possible; [Post] describes the states in the band. *)
Variables (R1 R2 : nat -> state -> Prop) (Post : state -> Prop).

Hypothesis out_of_band_sides :
  forall st, out_of_band st = c1 (st_i st) || c2 (st_i st).
Hypothesis R1_side : forall d st, R1 d st -> c1 (st_i st) = true.
Hypothesis R2_side :
  forall d st, R2 d st -> c2 (st_i st) = true /\ c1 (st_i st) = false.
Hypothesis phase1 : forall d st, R1 d st ->
  exists (n : nat) (st' : state),
    inner c1 c2 n ls st = Ok st' /\ c1 (st_i st') = false
    /\ ((c2 (st_i st') = false /\ Post st')
        \/ exists d', (d' < d)%nat /\ R2 d' st').
Hypothesis phase2 : forall d st, R2 d st ->
  exists (n : nat) (st' : state),
    inner c2 c1 n ls st = Ok st' /\ c2 (st_i st') = false
    /\ ((c1 (st_i st') = false /\ Post st')
        \/ exists d', (d' < d)%nat /\ R1 d' st').


End Outer.

(** ** The two sides of the band *)













(** ** Points ahead of a state *)




(** ** Near the throat *)


(** ** The decimal grid *)





(** ** One pass of an inner loop of the search *)






Section Search.

Variables (dir ls a b : Q).
Hypothesis dir_unit : dir == 1 \/ dir == -1.
Hypothesis ls_pos : 0 < ls.
Hypothesis a_pos : 0 < a.
Hypothesis region : forall m, a <= m <= b -> 0 <= (m - 1) * dir.
Hypothesis throat_below : 1 < lower_limit * ls.














End Search.

(** ** The two searches from Mach 1 *)








(** ** Rounding to five decimals *)


Lemma around_value (x : Q) :
  around x 5 == inject_Z (round_half_even (x * 100000)) / 100000.
Proof. unfold around. rewrite Qred_correct. reflexivity. Qed.



(** ** Outcomes of [area_to_mach] *)









(** ** The solver's contract *)







(** ** The first descent, exact and in binary64 *)

(** In exact arithmetic the tenth step down from Mach 1 is Mach 0 ... *)
Lemma exact_descent_reaches_zero (ls : Q) :
  point (State 1 (-0.1) (rs_of 1 / ls)) 10 == 0.
Proof. reflexivity. Qed.

(** ... while in binary64 none of the first ten steps is zero: the tenth
    is [0x1.4p-53], about 1.39e-16. *)
Lemma float_descent_nonzero :
  forallb (fun n => negb (float_descent n =? 0)%float) (seq 1 10) = true
  /\ float_descent 10 = 0x1.4p-53%float.
Proof. split; vm_compute; reflexivity. Qed.

(** * Further properties *)

(** ** The tables of the contour pass *)

(** A run of the first loop that ends has solved every row it went over. *)
Lemma first_loop_inversion (fuel : nat) (df : list (Q * Q)) (radius_throat : Q)
    (k : nat) : forall (i : nat) (cm : list (Q * Q * Q)) (r : nat * list (Q * Q * Q)),
  (i + k = length df)%nat -> length cm = length df ->
  while (S k) (rows_left df) (contour_mach_body fuel df radius_throat) (i, cm)
    = Ok r ->
  length r.2 = length df
  /\ (forall j, (j < i)%nat -> r.2 !! j = cm !! j)
  /\ (forall j row, (i <= j)%nat -> df !! j = Some row ->
        exists M, area_to_mach fuel row.1 row.2 radius_throat = Ok M
                  /\ r.2 !! j = Some (row.1, row.2, M)).
Proof.
  induction k as [|k IH]; intros i cm r Hik Hlen Hrun.
  - cbn [while rows_left] in Hrun.
    replace (i <? length df)%nat with false in Hrun
      by (symmetry; apply Nat.ltb_ge; lia).
    injection Hrun as <-. cbn [snd]. repeat split; auto.
    intros j row Hj Hrow. apply lookup_lt_Some in Hrow. lia.
  - assert (Hi : (i < length df)%nat) by lia.
    destruct (lookup_lt_is_Some_2 df i Hi) as [row Hrow].
    change (while (S (S k)) ?c ?b ?s)
      with (if c s then st' ← b s; while (S k) c b st' else Ok s) in Hrun.
    cbn [rows_left] in Hrun.
    replace (i <? length df)%nat with true in Hrun
      by (symmetry; apply Nat.ltb_lt; lia).
    rewrite (contour_mach_body_row fuel df radius_throat i row cm Hrow) in Hrun.
    destruct (area_to_mach fuel row.1 row.2 radius_throat) as [M| |] eqn:HM;
      cbn [mbind result_bind] in Hrun; try discriminate.
    apply IH in Hrun; [|lia|now rewrite length_insert].
    destruct Hrun as (Hl & Hold & Hnew).
    split; [exact Hl|]. split.
    + intros j Hj. rewrite Hold by lia. apply list_lookup_insert_ne. lia.
    + intros j r' Hj Hr'.
      destruct (decide (j = i)) as [->|Hne].
      * rewrite Hrow in Hr'. injection Hr' as <-.
        exists M. split; [exact HM|].
        rewrite Hold by lia. apply list_lookup_insert_eq. lia.
      * apply Hnew; [lia|exact Hr'].
Qed.

(** What the contour pass has done when it comes back with its tables. *)
Lemma contour_pass_inversion (fuel : nat) (df : list (Q * Q)) (radius_throat : Q)
    (out : written) :
  nozzle_contour_to_mach fuel df radius_throat = Ok out ->
  length (nozzle_Q1D_xym out) = length df
  /\ length (nozzle_Q1D_xm out) = length df
  /\ (forall j row, df !! j = Some row ->
        exists M, area_to_mach fuel row.1 row.2 radius_throat = Ok M
                  /\ nozzle_Q1D_xym out !! j = Some (row.1, row.2, M)
                  /\ nozzle_Q1D_xm out !! j = Some (row.1 / 1000, M)).
Proof.
  unfold nozzle_contour_to_mach. intros Hrun.
  destruct (while (S (length df)) (rows_left df)
              (contour_mach_body fuel df radius_throat)
              (0%nat, replicate (length df) (0, 0, 0)))
    as [[n cm]| |] eqn:Hfirst; cbn [mbind result_bind] in Hrun;
    try discriminate.
  destruct (first_loop_inversion fuel df radius_throat (length df) 0 _ _
              eq_refl (length_replicate _ _) Hfirst) as (Hlen & _ & Hrows).
  cbn [snd] in Hlen, Hrows.
  destruct (second_loop_ok df cm (length df) 0 (replicate (length df) (0, 0))
              eq_refl Hlen (length_replicate _ _))
    as (xm & Hsecond & Hlenx & _ & Hxrows).
  rewrite Hsecond in Hrun. cbn [mbind result_bind] in Hrun.
  injection Hrun as <-. cbn [nozzle_Q1D_xm nozzle_Q1D_xym].
  split; [exact Hlen|]. split; [exact Hlenx|].
  intros j row Hrow.
  destruct (Hrows j row ltac:(lia) Hrow) as (M & HM & Hcm).
  exists M. split; [exact HM|]. split; [exact Hcm|].
  apply (Hxrows j _ ltac:(lia) Hcm).
Qed.

(** X1.  The contour pass never skips a point: when it comes back with
    its tables, every row of the input was solved, and row [j] of the
    csv table holds the position and radius of input row [j] with the
    Mach number solved for it. *)
Theorem contour_output_means_all_solved (fuel : nat) (df : list (Q * Q))
    (radius_throat : Q) (out : written) :
  nozzle_contour_to_mach fuel df radius_throat = Ok out ->
  length (nozzle_Q1D_xym out) = length df
  /\ forall j x y, df !! j = Some (x, y) ->
       exists M, area_to_mach fuel x y radius_throat = Ok M
                 /\ nozzle_Q1D_xym out !! j = Some (x, y, M).
Proof.
  intros Hrun.
  destruct (contour_pass_inversion fuel df radius_throat out Hrun)
    as (Hlen & _ & Hrows).
  split; [exact Hlen|].
  intros j x y Hrow.
  destruct (Hrows j (x, y) Hrow) as (M & HM & Hcm & _).
  now exists M.
Qed.

Lemma contour_output_means_all_solved_witness :
  length (nozzle_Q1D_xym (Written [(0.000, 1); (0.010, 1.69797)]
                                  [(0, 4.3263, 1); (10, 5, 1.69797)])) = 2%nat
  /\ forall j x y, [(0, 4.3263); (10, 5)] !! j = Some (x, y) ->
       exists M, area_to_mach 100 x y 4.3263 = Ok M
                 /\ nozzle_Q1D_xym (Written [(0.000, 1); (0.010, 1.69797)]
                                            [(0, 4.3263, 1); (10, 5, 1.69797)])
                    !! j = Some (x, y, M).
Proof.
  apply (contour_output_means_all_solved 100 [(0, 4.3263); (10, 5)] 4.3263).
  vm_compute. reflexivity.
Defined.

(** X2.  The table for the plotting tool follows the csv table row by
    row: it has as many rows as the input, and its row [j] holds the
    position of input row [j] divided by 1000 and the same Mach number as
    row [j] of the csv table. *)
Theorem plot_table_follows_csv_table (fuel : nat) (df : list (Q * Q))
    (radius_throat : Q) (out : written) :
  nozzle_contour_to_mach fuel df radius_throat = Ok out ->
  length (nozzle_Q1D_xm out) = length df
  /\ forall j x y M, df !! j = Some (x, y) ->
       nozzle_Q1D_xym out !! j = Some (x, y, M) ->
       nozzle_Q1D_xm out !! j = Some (x / 1000, M).
Proof.
  intros Hrun.
  destruct (contour_pass_inversion fuel df radius_throat out Hrun)
    as (_ & Hlen & Hrows).
  split; [exact Hlen|].
  intros j x y M Hrow Hcm.
  destruct (Hrows j (x, y) Hrow) as (M' & _ & Hcm' & Hxm).
  rewrite Hcm in Hcm'. injection Hcm' as ->. exact Hxm.
Qed.

Lemma plot_table_follows_csv_table_witness :
  length (nozzle_Q1D_xm (Written [(0.000, 1); (0.010, 1.69797)]
                                 [(0, 4.3263, 1); (10, 5, 1.69797)])) = 2%nat
  /\ forall j x y M, [(0, 4.3263); (10, 5)] !! j = Some (x, y) ->
       nozzle_Q1D_xym (Written [(0.000, 1); (0.010, 1.69797)]
                               [(0, 4.3263, 1); (10, 5, 1.69797)])
         !! j = Some (x, y, M) ->
       nozzle_Q1D_xm (Written [(0.000, 1); (0.010, 1.69797)]
                              [(0, 4.3263, 1); (10, 5, 1.69797)])
         !! j = Some (x / 1000, M).
Proof.
  apply (plot_table_follows_csv_table 100 [(0, 4.3263); (10, 5)] 4.3263).
  vm_compute. reflexivity.
Defined.

(** The guard of [area_to_mach], for any amount of fuel. *)
Lemma guard_raises (fuel : nat) (x_pos radius_local radius_throat : Q) :
  radius_local < radius_throat ->
  area_to_mach fuel x_pos radius_local radius_throat
  = Raise (InvalidGeometry radius_throat).
Proof.
  intros Hlt. apply Qlt_bool_iff in Hlt. unfold area_to_mach. now rewrite Hlt.
Qed.

(** X3.  One point with a radius below the throat radius, anywhere in the
    contour, keeps the contour pass from writing anything, however long
    the solver is left to run on the other points. *)
Theorem point_below_throat_blocks_output (fuel : nat) (df : list (Q * Q))
    (radius_throat : Q) (j : nat) (row : Q * Q) :
  df !! j = Some row -> row.2 < radius_throat ->
  is_ok (nozzle_contour_to_mach fuel df radius_throat) = false.
Proof.
  intros Hrow Hlt.
  destruct (nozzle_contour_to_mach fuel df radius_throat) as [out| |] eqn:Hrun;
    try reflexivity.
  destruct (contour_pass_inversion fuel df radius_throat out Hrun)
    as (_ & _ & Hrows).
  destruct (Hrows j row Hrow) as (M & HM & _).
  rewrite (guard_raises fuel row.1 row.2 radius_throat Hlt) in HM.
  discriminate.
Qed.

Lemma point_below_throat_blocks_output_witness :
  is_ok (nozzle_contour_to_mach 100 [(0, 3); (5, 1); (6, 4)] 2) = false.
Proof.
  apply (point_below_throat_blocks_output 100 [(0, 3); (5, 1); (6, 4)] 2
           1 (5, 1)); reflexivity.
Defined.

(** X4.  An empty contour gives two empty tables, for any throat radius,
    and the solver is not run. *)
Theorem empty_contour (fuel : nat) (radius_throat : Q) :
  nozzle_contour_to_mach fuel [] radius_throat = Ok (Written [] []).
Proof. reflexivity. Qed.

(** ** What the loops can and cannot raise *)

Lemma while_raise_inv {St : Type} (P : exn -> Prop) (cond : St -> bool)
    (body : St -> result St) :
  (forall s e, body s = Raise e -> P e) ->
  forall fuel st e, while fuel cond body st = Raise e -> P e.
Proof.
  intros Hbody. induction fuel as [|fuel IH]; intros st e H; [discriminate|].
  cbn [while] in H. destruct (cond st); [|discriminate].
  destruct (body st) as [st'|e'|] eqn:Hb; cbn [mbind result_bind] in H.
  - eauto.
  - injection H as <-. eauto.
  - discriminate.
Qed.

Lemma bind_raise_inv {A B : Type} (P : exn -> Prop) (r : result A)
    (k : A -> result B) (e : exn) :
  (r ≫= k) = Raise e ->
  (forall e', r = Raise e' -> P e') -> (forall a e', k a = Raise e' -> P e') ->
  P e.
Proof.
  destruct r as [a|e'|]; cbn [mbind result_bind]; intros H Hr Hk.
  - eauto.
  - injection H as <-. eauto.
  - discriminate.
Qed.

Lemma advance_raise (ls : Q) (flip : Q -> bool) (st : state) (e : exn) :
  advance ls flip st = Raise e -> e = ZeroDivisionError.
Proof.
  unfold advance, right_side, py_div.
  destruct (Qeq_bool (Qred (st_mach_no st + st_step_size st) ^ 2) 0);
    cbn [mbind result_bind]; [congruence|].
  destruct (Qeq_bool ls 0); cbn [mbind result_bind]; congruence.
Qed.

Lemma loops_raise (fuel : nat) (ls : Q) (st : state) (e : exn) :
  subsonic_loop fuel ls st = Raise e \/ supersonic_loop fuel ls st = Raise e ->
  e = ZeroDivisionError.
Proof.
  assert (Ha : forall st e, while_above fuel ls st = Raise e -> e = ZeroDivisionError).
  { intros s e'. apply (while_raise_inv (fun e => e = ZeroDivisionError)).
    intros s' e''. apply advance_raise. }
  assert (Hb : forall st e, while_below fuel ls st = Raise e -> e = ZeroDivisionError).
  { intros s e'. apply (while_raise_inv (fun e => e = ZeroDivisionError)).
    intros s' e''. apply advance_raise. }
  intros [H|H]; revert H;
    apply (while_raise_inv (fun e => e = ZeroDivisionError)); intros s e' H;
    apply (bind_raise_inv (fun e => e = ZeroDivisionError) _ _ _ H);
    intros; eauto.
Qed.

(** The guard is the only place that raises [InvalidGeometry]. *)
Lemma raise_invalid_inv (fuel : nat) (x_pos radius_local radius_throat r : Q) :
  area_to_mach fuel x_pos radius_local radius_throat = Raise (InvalidGeometry r) ->
  radius_local < radius_throat /\ r = radius_throat.
Proof.
  unfold area_to_mach. destruct (radius_local <? radius_throat) eqn:G.
  - intros H. injection H as <-. split; [now apply Qlt_bool_iff|reflexivity].
  - intros H. exfalso.
    cut (InvalidGeometry r = ZeroDivisionError); [discriminate|].
    revert H. generalize (InvalidGeometry r). intros e H.
    apply (bind_raise_inv (fun e => e = ZeroDivisionError) _ _ _ H); clear H.
    { unfold py_div. intros e'. destruct (Qeq_bool _ _); congruence. }
    intros lar e' H. apply (bind_raise_inv (fun e => e = ZeroDivisionError) _ _ _ H); clear H.
    { unfold right_side, py_div. intros e''.
      destruct (Qeq_bool _ _); cbn [mbind result_bind]; congruence. }
    intros rs e'' H. apply (bind_raise_inv (fun e => e = ZeroDivisionError) _ _ _ H); clear H.
    { unfold py_div. intros e3. destruct (Qeq_bool _ _); congruence. }
    intros i e3 H.
    destruct ((lower_limit <? i) && (i <? upper_limit)); [discriminate|].
    destruct (negb (if x_pos <? 0 then false else true)).
    + apply (bind_raise_inv (fun e => e = ZeroDivisionError) _ _ _ H); [|discriminate].
      intros e4 H4. eapply loops_raise. left. exact H4.
    + apply (bind_raise_inv (fun e => e = ZeroDivisionError) _ _ _ H); [|discriminate].
      intros e4 H4. eapply loops_raise. right. exact H4.
Qed.

(** X5.  The error of the guard, InvalidGeometry, comes up exactly when
    the local radius is below the throat radius, whatever the position and
    however long the search is left to run, and the radius it reports is
    the throat radius; the search itself never raises it. *)
Theorem invalid_geometry_only_below_throat (fuel : nat)
    (x_pos radius_local radius_throat r : Q) :
  area_to_mach fuel x_pos radius_local radius_throat = Raise (InvalidGeometry r)
  <-> radius_local < radius_throat /\ r = radius_throat.
Proof.
  split.
  - apply raise_invalid_inv.
  - intros [Hlt ->]. now apply guard_raises.
Qed.

(** ** Mach 1 and the throat band *)



(** ** The shape of a returned value *)

Lemma bind_ok_inv {A B : Type} (r : result A) (k : A -> result B) (b : B) :
  (r ≫= k) = Ok b -> exists a, r = Ok a /\ k a = Ok b.
Proof.
  destruct r as [a|e|]; cbn [mbind result_bind]; intros H;
    [now exists a|discriminate|discriminate].
Qed.

(** A returned value is 1 or a rounded value. *)
Lemma area_to_mach_ok_inv (fuel : nat) (x_pos radius_local radius_throat M : Q) :
  area_to_mach fuel x_pos radius_local radius_throat = Ok M ->
  M = 1 \/ exists M0, M = around M0 5.
Proof.
  unfold area_to_mach.
  destruct (radius_local <? radius_throat); [discriminate|].
  intros H.
  apply bind_ok_inv in H. destruct H as (lar & _ & H).
  apply bind_ok_inv in H. destruct H as (rs & _ & H).
  apply bind_ok_inv in H. destruct H as (i & _ & H).
  destruct ((lower_limit <? i) && (i <? upper_limit)).
  - injection H as <-. now left.
  - right. destruct (negb (if x_pos <? 0 then false else true));
      apply bind_ok_inv in H; destruct H as (st & _ & H);
      injection H as <-; now exists (st_mach_no st).
Qed.

(** X7.  Every value the solver returns, for any input, is a whole
    number of hundred-thousandths: it has at most five decimals. *)
Theorem returned_mach_has_five_decimals (fuel : nat)
    (x_pos radius_local radius_throat M : Q) :
  area_to_mach fuel x_pos radius_local radius_throat = Ok M ->
  exists n : Z, M == inject_Z n / 100000.
Proof.
  intros H. destruct (area_to_mach_ok_inv _ _ _ _ _ H) as [->|[M0 ->]].
  - exists 100000%Z. reflexivity.
  - exists (round_half_even (M0 * 100000)). apply around_value.
Qed.

Lemma returned_mach_has_five_decimals_witness :
  exists n : Z, 147009 # 50000 == inject_Z n / 100000.
Proof.
  apply (returned_mach_has_five_decimals 100 0 2 1 (147009 # 50000)).
  vm_compute. reflexivity.
Defined.

(** ** The right side of the area-Mach relation *)

Lemma rs_of_even (m : Q) : rs_of (- m) == rs_of m.
Proof.
  assert (E : (- m) ^ 2 == m ^ 2) by ring.
  unfold rs_of. rewrite E. reflexivity.
Qed.

Lemma rs_of_ge_1 (m : Q) : ~ m == 0 -> 1 <= rs_of m.
Proof.
  intros Hm.
  assert (Hpos : forall p, 0 < p -> 1 <= rs_of p).
  { intros p Hp. rewrite <- rs_of_one.
    destruct (Qlt_le_dec p 1).
    - apply rs_of_decreasing; lra.
    - apply rs_of_increasing; lra. }
  destruct (Qlt_le_dec 0 m) as [H|H]; [now apply Hpos|].
  rewrite <- rs_of_even. apply Hpos.
  apply Qle_lt_or_eq in H. destruct H as [H|H]; [lra|contradiction].
Qed.

Lemma sigma5_lower_strict (u v : Q) : 0 < u -> u < v -> 6 * u ^ 5 < sigma5 u v.
Proof.
  intros Hu Huv.
  assert (E : sigma5 u v - 6 * u ^ 5
              == (v - u) * (v ^ 4 + 2 * v ^ 3 * u + 3 * v ^ 2 * u ^ 2
                            + 4 * v * u ^ 3 + 5 * u ^ 4))
    by (unfold sigma5; ring).
  assert (Hv : 0 < v) by lra.
  pose proof (Qpower_0_lt v 4 Hv) as V4.
  pose proof (Qpower_0_lt v 3 Hv) as V3.
  pose proof (Qpower_0_lt v 2 Hv) as V2.
  pose proof (Qpower_0_lt u 4 Hu) as U4.
  pose proof (Qpower_0_lt u 3 Hu) as U3.
  pose proof (Qpower_0_lt u 2 Hu) as U2.
  assert (T3 : 0 < v ^ 3 * u) by (apply Qmult_lt_0_compat; assumption).
  assert (T2 : 0 < v ^ 2 * u ^ 2) by (apply Qmult_lt_0_compat; assumption).
  assert (T1 : 0 < v * u ^ 3) by (apply Qmult_lt_0_compat; assumption).
  assert (P : 0 < (v - u) * (v ^ 4 + 2 * v ^ 3 * u + 3 * v ^ 2 * u ^ 2
                             + 4 * v * u ^ 3 + 5 * u ^ 4)).
  { apply Qmult_lt_0_compat; [lra|]. lra. }
  lra.
Qed.

Lemma sigma5_upper_strict (u v : Q) : 0 < u -> u < v -> sigma5 u v < 6 * v ^ 5.
Proof.
  intros Hu Huv.
  assert (E : 6 * v ^ 5 - sigma5 u v
              == (v - u) * (5 * v ^ 4 + 4 * v ^ 3 * u + 3 * v ^ 2 * u ^ 2
                            + 2 * v * u ^ 3 + u ^ 4))
    by (unfold sigma5; ring).
  assert (Hv : 0 < v) by lra.
  pose proof (Qpower_0_lt v 4 Hv) as V4.
  pose proof (Qpower_0_lt v 3 Hv) as V3.
  pose proof (Qpower_0_lt v 2 Hv) as V2.
  pose proof (Qpower_0_lt u 4 Hu) as U4.
  pose proof (Qpower_0_lt u 3 Hu) as U3.
  pose proof (Qpower_0_lt u 2 Hu) as U2.
  assert (T3 : 0 < v ^ 3 * u) by (apply Qmult_lt_0_compat; assumption).
  assert (T2 : 0 < v ^ 2 * u ^ 2) by (apply Qmult_lt_0_compat; assumption).
  assert (T1 : 0 < v * u ^ 3) by (apply Qmult_lt_0_compat; assumption).
  assert (P : 0 < (v - u) * (5 * v ^ 4 + 4 * v ^ 3 * u + 3 * v ^ 2 * u ^ 2
                             + 2 * v * u ^ 3 + u ^ 4)).
  { apply Qmult_lt_0_compat; [lra|]. lra. }
  lra.
Qed.

Lemma Qdiv_pos (n d : Q) : 0 < n -> 0 < d -> 0 < n / d.
Proof.
  intros Hn Hd. apply Qlt_shift_div_l; [assumption|]. now rewrite Qmult_0_l.
Qed.

Lemma sq_lt (x y : Q) : 0 < x -> x < y -> x ^ 2 < y ^ 2.
Proof. intros. nra. Qed.

(** Above Mach 1 the right side grows strictly ... *)
Lemma rs_of_strictly_increasing (x y : Q) : 1 <= x -> x < y -> rs_of x < rs_of y.
Proof.
  intros Hx Hxy.
  assert (Ha : 1 <= x ^ 2) by nra.
  assert (Hab : x ^ 2 < y ^ 2) by (apply sq_lt; lra).
  assert (Hd : 0 < 46656 * x ^ 2 * y ^ 2) by nra.
  assert (Hx0 : ~ x == 0) by (intros E; rewrite E in Hx; lra).
  assert (Hy0 : ~ y == 0) by (intros E; rewrite E in Hxy; lra).
  cut (0 < rs_of y - rs_of x); [lra|].
  rewrite (rs_of_diff x y Hx0 Hy0), numerator_factor.
  clear Hx0 Hy0.
  set (a := x ^ 2) in *. set (b := y ^ 2) in *.
  apply Qdiv_pos; [|assumption].
  apply Qmult_lt_0_compat; [lra|].
  pose proof (sigma5_lower_strict (5 + a) (5 + b) ltac:(lra) ltac:(lra)) as HS.
  assert (Hu5 : 0 < (5 + a) ^ 5) by (apply Qpower_0_lt; lra).
  assert (E : (5 + a) ^ 6 == (5 + a) * (5 + a) ^ 5) by ring.
  rewrite E.
  set (s := sigma5 (5 + a) (5 + b)) in *. set (w := (5 + a) ^ 5) in *.
  assert (0 < a * (s - 6 * w)) by (apply Qmult_lt_0_compat; lra).
  assert (0 <= (a - 1) * w) by (apply Qmult_le_0_compat; lra).
  lra.
Qed.

(** ... and below Mach 1 it falls strictly. *)
Lemma rs_of_strictly_decreasing (x y : Q) :
  0 < x -> x < y -> y <= 1 -> rs_of y < rs_of x.
Proof.
  intros Hx Hxy Hy.
  assert (Ha : 0 < x ^ 2) by nra.
  assert (Hb : y ^ 2 <= 1) by nra.
  assert (Hab : x ^ 2 < y ^ 2) by (apply sq_lt; lra).
  assert (Hd : 0 < 46656 * x ^ 2 * y ^ 2) by nra.
  assert (Hx0 : ~ x == 0) by (intros E; rewrite E in Hx; lra).
  assert (Hy0 : ~ y == 0) by (intros E; rewrite E in Hxy; lra).
  cut (0 < - (rs_of y - rs_of x)); [lra|].
  rewrite (rs_of_diff x y Hx0 Hy0), numerator_factor'.
  clear Hx0 Hy0.
  set (a := x ^ 2) in *. set (b := y ^ 2) in *.
  assert (Hn : 0 < (b - a) * ((5 + b) ^ 6 - b * sigma5 (5 + a) (5 + b))).
  { apply Qmult_lt_0_compat; [lra|].
    pose proof (sigma5_upper_strict (5 + a) (5 + b) ltac:(lra) ltac:(lra)) as HS.
    assert (Hv5 : 0 < (5 + b) ^ 5) by (apply Qpower_0_lt; lra).
    assert (E : (5 + b) ^ 6 == (5 + b) * (5 + b) ^ 5) by ring.
    rewrite E.
    set (s := sigma5 (5 + a) (5 + b)) in *. set (w := (5 + b) ^ 5) in *.
    assert (0 < b * (6 * w - s)) by (apply Qmult_lt_0_compat; lra).
    assert (0 <= (1 - b) * w) by (apply Qmult_le_0_compat; lra).
    lra. }
  set (s := sigma5 (5 + a) (5 + b)) in *.
  assert (E : - ((b - a) * (b * s - (5 + b) ^ 6) / (46656 * a * b))
              == ((b - a) * ((5 + b) ^ 6 - b * s)) / (46656 * a * b))
    by (field; lra).
  rewrite E. apply Qdiv_pos; assumption.
Qed.

(** X8.  The right side of the relation is never below 1: at every Mach
    number other than zero the expression has a value, the value is at
    least 1, the value at Mach 1, and it does not depend on the sign of
    the Mach number. *)
Theorem right_side_at_least_one (mach_no : Q) :
  ~ mach_no == 0 ->
  exists v v' v1 : Q,
    right_side mach_no = Ok v /\ right_side (- mach_no) = Ok v'
    /\ right_side 1 = Ok v1
    /\ v1 == 1 /\ v1 <= v /\ v' == v.
Proof.
  intros Hm.
  exists (rs_of mach_no), (rs_of (- mach_no)), (rs_of 1).
  split; [now apply right_side_ok|].
  split; [apply right_side_ok; intros E; apply Hm; lra|].
  split; [now apply right_side_ok|].
  split; [apply rs_of_one|].
  split; [rewrite rs_of_one; now apply rs_of_ge_1|apply rs_of_even].
Qed.

Lemma right_side_at_least_one_witness :
  exists v v' v1 : Q,
    right_side 0.5 = Ok v /\ right_side (- 0.5) = Ok v'
    /\ right_side 1 = Ok v1
    /\ v1 == 1 /\ v1 <= v /\ v' == v.
Proof.
  apply (right_side_at_least_one 0.5). vm_compute. discriminate.
Defined.

(** X9.  On each branch the right side is strictly monotone in the Mach
    number, so that a target has at most one solution per branch: between
    two Mach numbers above zero it grows strictly when the smaller one is
    at least 1, and it falls strictly when the larger one is at most 1. *)
Theorem right_side_strictly_monotone_per_branch (x y : Q) :
  0 < x -> x < y ->
  exists vx vy : Q,
    right_side x = Ok vx /\ right_side y = Ok vy
    /\ (1 <= x -> vx < vy) /\ (y <= 1 -> vy < vx).
Proof.
  intros Hx Hxy.
  exists (rs_of x), (rs_of y).
  split; [apply right_side_ok; intros E; rewrite E in Hx; lra|].
  split; [apply right_side_ok; intros E; rewrite E in Hxy; lra|].
  split.
  - intros H1. now apply rs_of_strictly_increasing.
  - intros H1. now apply rs_of_strictly_decreasing.
Qed.

Lemma right_side_strictly_monotone_per_branch_witness :
  exists vx vy : Q,
    right_side 2 = Ok vx /\ right_side 3 = Ok vy
    /\ (1 <= 2 -> vx < vy) /\ (3 <= 1 -> vy < vx).
Proof.
  apply (right_side_strictly_monotone_per_branch 2 3); reflexivity.
Defined.

(** ** Targets below 1 *)

(** What holds when a loop comes back: the invariant, and the loop test
    is false. *)
Lemma while_ok_inv {St : Type} (P : St -> Prop) (cond : St -> bool)
    (body : St -> result St) :
  (forall s s', P s -> body s = Ok s' -> P s') ->
  forall fuel st st', P st -> while fuel cond body st = Ok st' ->
    P st' /\ cond st' = false.
Proof.
  intros Hbody. induction fuel as [|fuel IH]; intros st st' HP H;
    [discriminate|].
  cbn [while] in H. destruct (cond st) eqn:Hc.
  - apply bind_ok_inv in H. destruct H as (s1 & Hb & H). eauto.
  - injection H as <-. now split.
Qed.

Section BelowOne.

Variable ls : Q.
Hypothesis ls_pos : 0 < ls.
Hypothesis ls_small : upper_limit * ls < 1.

(** Whatever Mach number the search steps to, the ratio stays above the
    band. *)
Lemma ratio_stays_above (m : Q) : ~ m == 0 -> upper_limit < rs_of m / ls.
Proof.
  intros Hm. pose proof (rs_of_ge_1 m Hm) as H1.
  apply Qlt_shift_div_l; [exact ls_pos|]. lra.
Qed.

Lemma advance_stays_above (flip : Q -> bool) (st st' : state) :
  advance ls flip st = Ok st' -> above st' = true.
Proof.
  unfold advance. intros H.
  destruct (Qeq_dec (Qred (st_mach_no st + st_step_size st)) 0) as [E|E].
  - rewrite (right_side_zero _ E) in H. discriminate.
  - rewrite (right_side_ok _ E) in H. cbn [mbind result_bind] in H.
    rewrite py_div_ok in H by lra. cbn [mbind result_bind] in H.
    injection H as <-. unfold above. cbn [st_i].
    apply Qlt_bool_iff. now apply ratio_stays_above.
Qed.

Lemma inner_stays_above (fuel : nat) (st st' : state) :
  above st = true ->
  while_above fuel ls st = Ok st' \/ while_below fuel ls st = Ok st' ->
  above st' = true.
Proof.
  intros Hst [H|H];
    apply (while_ok_inv (fun s => above s = true)) in H;
    try tauto; intros s s' _; apply advance_stays_above.
Qed.

Lemma search_never_returns (fuel : nat) (st st' : state) :
  above st = true ->
  subsonic_loop fuel ls st <> Ok st' /\ supersonic_loop fuel ls st <> Ok st'.
Proof.
  intros Hst.
  assert (Hout : forall s, above s = true -> out_of_band s = true).
  { intros s Hs. unfold out_of_band. rewrite Hs. apply orb_true_r. }
  split; intros H;
    apply (while_ok_inv (fun s => above s = true)) in H; try exact Hst.
  - destruct H as [Ha Hc]. rewrite (Hout _ Ha) in Hc. discriminate.
  - intros s s' Hs Hb. apply bind_ok_inv in Hb. destruct Hb as (s1 & H1 & H2).
    eapply inner_stays_above; [|right; exact H2].
    eapply inner_stays_above; [exact Hs|left; exact H1].
  - destruct H as [Ha Hc]. rewrite (Hout _ Ha) in Hc. discriminate.
  - intros s s' Hs Hb. apply bind_ok_inv in Hb. destruct Hb as (s1 & H1 & H2).
    eapply inner_stays_above; [|left; exact H2].
    eapply inner_stays_above; [exact Hs|right; exact H1].
Qed.

(** A step to a Mach number other than zero. *)
Lemma advance_value (flip : Q -> bool) (st : state) :
  let mach_no := Qred (st_mach_no st + st_step_size st) in
  ~ mach_no == 0 ->
  advance ls flip st
  = Ok {| st_mach_no := mach_no;
          st_step_size := if flip (rs_of mach_no / ls)
                          then Qred (st_step_size st * -0.1)
                          else st_step_size st;
          st_i := rs_of mach_no / ls |}.
Proof.
  intros mach_no E. unfold advance. fold mach_no.
  rewrite (right_side_ok _ E). cbn [mbind result_bind].
  rewrite py_div_ok by lra. reflexivity.
Qed.

(** With a step above zero the loop [while i > upper_limit] goes up the
    Mach numbers without end. *)
Lemma while_above_runs_on (fuel : nat) : forall st : state,
  0 < st_mach_no st -> 0 < st_step_size st -> above st = true ->
  while_above fuel ls st = OutOfFuel.
Proof.
  induction fuel as [|fuel IH]; intros st HM Hs Ha; [reflexivity|].
  unfold while_above in *. cbn [while]. rewrite Ha.
  assert (E : ~ Qred (st_mach_no st + st_step_size st) == 0)
    by (rewrite Qred_correct; lra).
  rewrite (advance_value _ st E). cbn [mbind result_bind].
  pose proof (ratio_stays_above _ E) as Hi.
  assert (Hflip : (rs_of (Qred (st_mach_no st + st_step_size st)) / ls
                   <? lower_limit) = false).
  { apply Qlt_bool_false. unfold lower_limit, upper_limit, tolerance in *. lra. }
  rewrite Hflip. apply IH; cbn [st_mach_no st_step_size st_i].
  - rewrite Qred_correct. lra.
  - exact Hs.
  - unfold above. cbn [st_i]. now apply Qlt_bool_iff.
Qed.

Lemma supersonic_loop_runs_on (fuel : nat) (st : state) :
  0 < st_mach_no st -> 0 < st_step_size st -> above st = true ->
  supersonic_loop fuel ls st = OutOfFuel.
Proof.
  intros HM Hs Ha. destruct fuel as [|fuel]; [reflexivity|].
  unfold supersonic_loop. cbn [while].
  unfold out_of_band. rewrite Ha, orb_true_r.
  assert (Hb : below st = false).
  { unfold below. apply Qlt_bool_false. unfold above in Ha.
    apply Qlt_bool_iff in Ha.
    unfold lower_limit, upper_limit, tolerance in *. lra. }
  assert (Hbody : (st' ← while_below (S fuel) ls st; while_above (S fuel) ls st')
                  = OutOfFuel).
  { unfold while_below. cbn [while]. rewrite Hb. cbn [mbind result_bind].
    apply (while_above_runs_on (S fuel) st HM Hs Ha). }
  rewrite Hbody. reflexivity.
Qed.

End BelowOne.

(** The target [ls] of a call, away from zero radii. *)
Lemma area_to_mach_below_one (fuel : nat) (x_pos radius_local radius_throat : Q) :
  ~ radius_throat == 0 -> ~ radius_local == 0 ->
  radius_throat <= radius_local ->
  upper_limit * ls_of radius_local radius_throat < 1 ->
  area_to_mach fuel x_pos radius_local radius_throat =
  let ls := ls_of radius_local radius_throat in
  if x_pos <? 0 then
    st ← subsonic_loop fuel ls (State 1 (-0.1) (rs_of 1 / ls));
    Ok (around (st_mach_no st) 5)
  else
    st ← supersonic_loop fuel ls (State 1 (-0.1 * -1) (rs_of 1 / ls));
    Ok (around (st_mach_no st) decimals).
Proof.
  intros Hrt Hrl Hge Hsmall.
  pose proof (ls_of_pos radius_local radius_throat Hrt Hrl) as Hls.
  rewrite (area_to_mach_unfold fuel x_pos _ _ Hge Hrt). cbv zeta.
  set (ls := ls_of radius_local radius_throat) in *.
  assert (E0 : Qeq_bool ls 0 = false).
  { apply not_true_is_false. intros E. apply Qeq_bool_iff in E. lra. }
  rewrite E0.
  assert (Hi : upper_limit < rs_of 1 / ls)
    by (apply ratio_stays_above; [assumption|assumption|lra]).
  assert (E1 : (rs_of 1 / ls <? upper_limit) = false)
    by (apply Qlt_bool_false; lra).
  rewrite E1, andb_false_r. reflexivity.
Qed.

(** X10.  The guard lets an area ratio below 1 through when the throat
    radius is negative.  For such a call (radii other than zero, the guard
    passed, the target below the band) no Mach number is ever returned,
    for either sign of the position, and for a position of zero or more
    the search goes on without end, whatever the number of steps it is
    given. *)
Theorem ratio_below_one_has_no_solution (fuel : nat)
    (x_pos radius_local radius_throat : Q) :
  ~ radius_throat == 0 -> ~ radius_local == 0 ->
  radius_throat <= radius_local ->
  upper_limit * ls_of radius_local radius_throat < 1 ->
  (forall M, area_to_mach fuel x_pos radius_local radius_throat <> Ok M)
  /\ (0 <= x_pos ->
      area_to_mach fuel x_pos radius_local radius_throat = OutOfFuel).
Proof.
  intros Hrt Hrl Hge Hsmall.
  pose proof (ls_of_pos radius_local radius_throat Hrt Hrl) as Hls.
  rewrite (area_to_mach_below_one fuel x_pos _ _ Hrt Hrl Hge Hsmall). cbv zeta.
  set (ls := ls_of radius_local radius_throat) in *.
  assert (Ha : above (State 1 (-0.1) (rs_of 1 / ls)) = true
               /\ above (State 1 (-0.1 * -1) (rs_of 1 / ls)) = true).
  { unfold above. cbn [st_i]. split; apply Qlt_bool_iff;
      apply ratio_stays_above; try assumption; lra. }
  destruct Ha as [Ha1 Ha2].
  split.
  - intros M H. destruct (x_pos <? 0);
      apply bind_ok_inv in H; destruct H as (st & H & _).
    + now apply (search_never_returns ls Hls Hsmall fuel _ st Ha1) in H.
    + now apply (search_never_returns ls Hls Hsmall fuel _ st Ha2) in H.
  - intros Hx. apply Qlt_bool_false in Hx. rewrite Hx.
    rewrite (supersonic_loop_runs_on ls Hls Hsmall fuel); try reflexivity.
    exact Ha2.
Qed.

Lemma ratio_below_one_has_no_solution_witness :
  (forall M, area_to_mach 50 3 1 (-2) <> Ok M)
  /\ (0 <= 3 -> area_to_mach 50 3 1 (-2) = OutOfFuel).
Proof.
  apply (ratio_below_one_has_no_solution 50 3 1 (-2)); vm_compute;
    congruence.
Defined.

(** ** Only the ratio of the radii matters *)

Lemma while_same {St : Type} (R : St -> St -> Prop) (cond : St -> bool)
    (body body' : St -> result St) :
  (forall s t, R s t -> cond s = cond t) ->
  (forall s t, R s t -> same_outcome R (body s) (body' t)) ->
  forall fuel s t, R s t ->
    same_outcome R (while fuel cond body s) (while fuel cond body' t).
Proof.
  intros Hc Hb. induction fuel as [|fuel IH]; intros s t Hst; [exact I|].
  cbn [while]. rewrite (Hc s t Hst). destruct (cond t); [|exact Hst].
  specialize (Hb s t Hst).
  destruct (body s) as [s'|e|], (body' t) as [t'|e'|];
    cbn [mbind result_bind same_outcome] in *; try contradiction; auto.
Qed.

Lemma bind_same {A B : Type} (R : A -> A -> Prop) (R' : B -> B -> Prop)
    (r r' : result A) (k k' : A -> result B) :
  same_outcome R r r' ->
  (forall a b, R a b -> same_outcome R' (k a) (k' b)) ->
  same_outcome R' (r ≫= k) (r' ≫= k').
Proof.
  intros Hr Hk.
  destruct r as [a|e|], r' as [b|e'|];
    cbn [mbind result_bind same_outcome] in *; try contradiction; auto.
Qed.

Lemma py_div_same (a b b' : Q) :
  b == b' -> same_outcome Qeq (py_div a b) (py_div a b').
Proof.
  intros E. destruct (Qeq_dec b 0) as [H|H].
  - rewrite !py_div_zero; [reflexivity| |assumption]. now rewrite <- E.
  - rewrite !py_div_ok; [|now rewrite <- E|assumption].
    cbn [same_outcome]. now rewrite E.
Qed.

Lemma advance_same (ls ls' : Q) (flip : Q -> bool) (s t : state) :
  ls == ls' -> (forall i j, i == j -> flip i = flip j) -> same_state s t ->
  same_outcome same_state (advance ls flip s) (advance ls' flip t).
Proof.
  intros Els Hflip (HM & Hs & _). unfold advance. rewrite HM, Hs.
  destruct (right_side (Qred (st_mach_no t + st_step_size t))) as [rs|e|];
    cbn [mbind result_bind same_outcome]; auto.
  apply (bind_same Qeq); [now apply py_div_same|].
  intros i j Eij. cbn [same_outcome]. unfold same_state.
  cbn [st_mach_no st_step_size st_i]. rewrite (Hflip i j Eij). auto.
Qed.

Lemma tests_same (s t : state) :
  same_state s t ->
  above s = above t /\ below s = below t /\ out_of_band s = out_of_band t.
Proof.
  intros (_ & _ & Ei). unfold out_of_band, above, below.
  now rewrite Ei.
Qed.

Lemma loops_same (fuel : nat) (ls ls' : Q) (s t : state) :
  ls == ls' -> same_state s t ->
  same_outcome same_state (subsonic_loop fuel ls s) (subsonic_loop fuel ls' t)
  /\ same_outcome same_state (supersonic_loop fuel ls s)
                             (supersonic_loop fuel ls' t).
Proof.
  intros Els Hst.
  assert (Ha : forall s t, same_state s t ->
            same_outcome same_state (while_above fuel ls s) (while_above fuel ls' t)).
  { intros s0 t0. apply while_same.
    - intros a b Hab. apply (tests_same a b Hab).
    - intros a b Hab. apply advance_same; [exact Els| |exact Hab].
      intros i j Eij. now rewrite Eij. }
  assert (Hb : forall s t, same_state s t ->
            same_outcome same_state (while_below fuel ls s) (while_below fuel ls' t)).
  { intros s0 t0. apply while_same.
    - intros a b Hab. apply (tests_same a b Hab).
    - intros a b Hab. apply advance_same; [exact Els| |exact Hab].
      intros i j Eij. now rewrite Eij. }
  split; apply while_same; try exact Hst.
  - intros a b Hab. apply (tests_same a b Hab).
  - intros a b Hab. apply (bind_same same_state); auto.
  - intros a b Hab. apply (tests_same a b Hab).
  - intros a b Hab. apply (bind_same same_state); auto.
Qed.

(** The part of [area_to_mach] after the area ratio, for two area ratios
    that are equal as numbers. *)
Lemma search_same (fuel : nat) (x_pos lar lar' : Q) :
  lar == lar' ->
  (rs ← right_side 1;
   i ← py_div rs (lar ^ 2);
   if (lower_limit <? i) && (i <? upper_limit) then Ok 1
   else if negb (if x_pos <? 0 then false else true) then
     st ← subsonic_loop fuel (lar ^ 2) (State 1 (-0.1) i);
     Ok (around (st_mach_no st) 5)
   else
     st ← supersonic_loop fuel (lar ^ 2) (State 1 (-0.1 * -1) i);
     Ok (around (st_mach_no st) decimals))
  = (rs ← right_side 1;
     i ← py_div rs (lar' ^ 2);
     if (lower_limit <? i) && (i <? upper_limit) then Ok 1
     else if negb (if x_pos <? 0 then false else true) then
       st ← subsonic_loop fuel (lar' ^ 2) (State 1 (-0.1) i);
       Ok (around (st_mach_no st) 5)
     else
       st ← supersonic_loop fuel (lar' ^ 2) (State 1 (-0.1 * -1) i);
       Ok (around (st_mach_no st) decimals)).
Proof.
  intros E.
  assert (Els : lar ^ 2 == lar' ^ 2) by now rewrite E.
  assert (Heq : forall r r' : result Q, same_outcome eq r r' -> r = r').
  { intros [a|e|] [b|e'|]; cbn [same_outcome]; intros H;
      try contradiction; congruence. }
  apply Heq.
  apply (bind_same eq); [destruct (right_side 1); cbn [same_outcome]; auto|].
  intros rs ? <-.
  apply (bind_same Qeq); [now apply py_div_same|].
  intros i j Eij. rewrite Eij.
  destruct ((lower_limit <? j) && (j <? upper_limit)); [reflexivity|].
  assert (Hst : forall step, same_state (State 1 step i) (State 1 step j))
    by (intros step; unfold same_state; cbn [st_mach_no st_step_size st_i]; auto).
  destruct (negb (if x_pos <? 0 then false else true)).
  - apply (bind_same same_state); [apply loops_same; auto|].
    intros a b (HM & _). cbn [same_outcome]. now rewrite HM.
  - apply (bind_same same_state); [apply loops_same; auto|].
    intros a b (HM & _). cbn [same_outcome]. now rewrite HM.
Qed.

(** X11.  Only the ratio of the two radii enters the solution: with the
    guard passed, multiplying both radii by the same factor above zero (a
    change of the unit of length) leaves the outcome of the call as it is,
    for every position and every number of steps. *)
Theorem radii_scale_together (fuel : nat) (x_pos radius_local radius_throat c : Q) :
  0 < c -> radius_throat <= radius_local ->
  area_to_mach fuel x_pos (c * radius_local) (c * radius_throat)
  = area_to_mach fuel x_pos radius_local radius_throat.
Proof.
  intros Hc Hge. unfold area_to_mach. cbv zeta.
  assert (G : (radius_local <? radius_throat) = false)
    by now apply Qlt_bool_false.
  assert (G' : (c * radius_local <? c * radius_throat) = false)
    by (apply Qlt_bool_false; nra).
  rewrite G, G'.
  destruct (Qeq_dec radius_throat 0) as [H0|H0].
  - rewrite !py_div_zero; [reflexivity| |]; rewrite H0; ring.
  - assert (H2 : ~ radius_throat ^ 2 == 0).
    { intros E. apply H0. nra. }
    assert (H2' : ~ (c * radius_throat) ^ 2 == 0).
    { intros E. apply H2.
      assert (E' : c ^ 2 * radius_throat ^ 2 == 0) by (rewrite <- E; ring).
      assert (0 < c ^ 2) by nra. nra. }
    rewrite (py_div_ok _ _ H2), (py_div_ok _ _ H2').
    cbn [mbind result_bind].
    apply search_same. field. split; [exact H0|lra].
Qed.

Lemma radii_scale_together_witness :
  area_to_mach 100 7 (1000 * 2) (1000 * 1) = area_to_mach 100 7 2 1.
Proof.
  apply (radii_scale_together 100 7 2 1 1000); vm_compute; congruence.
Defined.

(** ** Contours in pieces *)

(** When every row solves, the contour pass comes back with its tables. *)
Lemma contour_pass_ok (fuel : nat) (df : list (Q * Q)) (radius_throat : Q) :
  (forall j row, df !! j = Some row ->
     exists M, area_to_mach fuel row.1 row.2 radius_throat = Ok M) ->
  exists out, nozzle_contour_to_mach fuel df radius_throat = Ok out.
Proof.
  intros Hsolve.
  destruct (first_loop_ok fuel df radius_throat (length df) 0
              (replicate (length df) (0, 0, 0)) eq_refl (length_replicate _ _))
    as (cm & Hfirst & Hlen & _).
  { intros j row _. apply Hsolve. }
  destruct (second_loop_ok df cm (length df) 0 (replicate (length df) (0, 0))
              eq_refl Hlen (length_replicate _ _))
    as (xm & Hsecond & _).
  exists (Written xm cm). unfold nozzle_contour_to_mach.
  rewrite Hfirst. cbn [mbind result_bind]. rewrite Hsecond. reflexivity.
Qed.

(** Two lists that follow, row by row, the rows of [df1 ++ df2] are the
    two lists of the parts, one after the other. *)
Lemma rows_of_parts {A : Type} (df1 df2 : list (Q * Q)) (l l1 l2 : list A)
    (P : Q * Q -> A -> Prop) :
  (forall row a b, P row a -> P row b -> a = b) ->
  length l = length (df1 ++ df2) -> length l1 = length df1 ->
  length l2 = length df2 ->
  (forall j row, (df1 ++ df2) !! j = Some row ->
     exists a, l !! j = Some a /\ P row a) ->
  (forall j row, df1 !! j = Some row -> exists a, l1 !! j = Some a /\ P row a) ->
  (forall j row, df2 !! j = Some row -> exists a, l2 !! j = Some a /\ P row a) ->
  l = l1 ++ l2.
Proof.
  intros Hfun Hl Hl1 Hl2 H H1 H2. apply list_eq. intros j.
  destruct ((df1 ++ df2) !! j) as [row|] eqn:Hrow.
  - destruct (H j row Hrow) as (a & Ha & HPa). rewrite Ha.
    apply lookup_app_Some in Hrow. destruct Hrow as [Hrow|[Hj Hrow]].
    + destruct (H1 j row Hrow) as (b & Hb & HPb).
      rewrite lookup_app_l by (apply lookup_lt_Some in Hb; exact Hb).
      rewrite Hb. f_equal. eauto.
    + destruct (H2 _ row Hrow) as (b & Hb & HPb).
      rewrite lookup_app_r by lia. rewrite Hl1, Hb. f_equal. eauto.
  - apply lookup_ge_None in Hrow.
    rewrite (lookup_ge_None_2 l j) by lia.
    symmetry. apply lookup_ge_None_2.
    rewrite length_app in *. lia.
Qed.

(** X12.  The contour pass treats each row on its own: when it writes
    tables for two contours, then for the two contours joined into one it
    writes the tables of the first followed by the tables of the
    second. *)
Theorem contours_concatenate (fuel : nat) (df1 df2 : list (Q * Q))
    (radius_throat : Q) (out1 out2 : written) :
  nozzle_contour_to_mach fuel df1 radius_throat = Ok out1 ->
  nozzle_contour_to_mach fuel df2 radius_throat = Ok out2 ->
  nozzle_contour_to_mach fuel (df1 ++ df2) radius_throat
  = Ok (Written (nozzle_Q1D_xm out1 ++ nozzle_Q1D_xm out2)
                (nozzle_Q1D_xym out1 ++ nozzle_Q1D_xym out2)).
Proof.
  intros Hrun1 Hrun2.
  destruct (contour_pass_inversion _ _ _ _ Hrun1) as (Hc1 & Hx1 & Hrows1).
  destruct (contour_pass_inversion _ _ _ _ Hrun2) as (Hc2 & Hx2 & Hrows2).
  destruct (contour_pass_ok fuel (df1 ++ df2) radius_throat) as [out Hrun].
  { intros j row Hrow. apply lookup_app_Some in Hrow.
    destruct Hrow as [Hrow|[_ Hrow]].
    - destruct (Hrows1 _ _ Hrow) as (M & HM & _). now exists M.
    - destruct (Hrows2 _ _ Hrow) as (M & HM & _). now exists M. }
  destruct (contour_pass_inversion _ _ _ _ Hrun) as (Hc & Hx & Hrows).
  rewrite Hrun. destruct out as [xm cm].
  cbn [nozzle_Q1D_xm nozzle_Q1D_xym] in *. f_equal. f_equal.
  - apply (rows_of_parts df1 df2 _ _ _
             (fun row a => exists M,
                area_to_mach fuel row.1 row.2 radius_throat = Ok M
                /\ a = (row.1 / 1000, M))); auto.
    + intros row a b (M & HM & ->) (M' & HM' & ->). congruence.
    + intros j row Hrow. destruct (Hrows _ _ Hrow) as (M & HM & _ & Hxm). eauto.
    + intros j row Hrow. destruct (Hrows1 _ _ Hrow) as (M & HM & _ & Hxm). eauto.
    + intros j row Hrow. destruct (Hrows2 _ _ Hrow) as (M & HM & _ & Hxm). eauto.
  - apply (rows_of_parts df1 df2 _ _ _
             (fun row a => exists M,
                area_to_mach fuel row.1 row.2 radius_throat = Ok M
                /\ a = (row.1, row.2, M))); auto.
    + intros row a b (M & HM & ->) (M' & HM' & ->). congruence.
    + intros j row Hrow. destruct (Hrows _ _ Hrow) as (M & HM & Hcm & _). eauto.
    + intros j row Hrow. destruct (Hrows1 _ _ Hrow) as (M & HM & Hcm & _). eauto.
    + intros j row Hrow. destruct (Hrows2 _ _ Hrow) as (M & HM & Hcm & _). eauto.
Qed.

Lemma contours_concatenate_witness :
  nozzle_contour_to_mach 100 ([(-5, 3)] ++ [(0, 2); (10, 4)]) 2
  = Ok (Written ([(-0.005, 0.26849)] ++ [(0.000, 1); (0.010, 147009 # 50000)])
                ([(-5, 3, 0.26849)] ++ [(0, 2, 1); (10, 4, 147009 # 50000)])).
Proof.
  apply (contours_concatenate 100 [(-5, 3)] [(0, 2); (10, 4)] 2
           (Written [(-0.005, 0.26849)] [(-5, 3, 0.26849)])
           (Written [(0.000, 1); (0.010, 147009 # 50000)]
                    [(0, 2, 1); (10, 4, 147009 # 50000)]));
    vm_compute; reflexivity.
Defined.
